(** * A shallow embedding of [traceroute.py] (class [Tracer])

    The program sends UDP probes with growing TTL and listens for the ICMP
    answers.  Everything it does goes through the operating system, so the
    embedding is a small state-and-exception monad over a [world] that
    records the open sockets and the chronological list of system events,
    and an [env] that answers for the operating system, the network, the
    clock and the GeoIP database.

    The calls whose failure the program handles can fail in the model: the
    name resolution, the opening of the database, [bind], [recvfrom] and
    the database lookup.  The calls it does not guard ([socket],
    [setsockopt], [sendto], [close]) are taken to succeed in the first
    model, which serves for what the program does when they return.

    The second model, module [Os], lets [socket], [setsockopt] and
    [sendto] raise, lets the lookup and the database reader raise
    exceptions that the handlers do not name, and has the system refuse
    the TTLs it refuses.  It serves for the ways a run can be left and for
    the sockets it leaves; where no unguarded call fails the two models
    agree ([os_run_refines]). *)

From Stdlib Require Import ZArith List String Ascii Bool Lia Floats DecimalString.
From Stdlib Require Uint63.
Import ListNotations.

Local Open Scope Z_scope.
Local Open Scope string_scope.

(** ** Python values the program handles *)

(** Python's [float] is IEEE binary64, which is what [PrimFloat.float] is;
    it is used for the clock readings and the coordinates. *)

(** [str(n)] for an [int]. *)
Definition str_int (n : Z) : string := NilZero.string_of_int (Z.to_int n).

Fixpoint spaces (n : nat) : string :=
  match n with
  | O => ""
  | S n' => String " " (spaces n')
  end.

(** The format specification [{:<4}]: left-justified in a field of width 4. *)
Definition ljust4 (s : string) : string :=
  s ++ spaces (4 - String.length s).

(** ** Exceptions and results *)

(** The only exception the program raises itself is [IOError]. *)
Inductive exn : Type :=
| IOError (msg : string).

Inductive result (A : Type) : Type :=
| Ok (a : A)
| Raise (e : exn).
Arguments Ok {A} a.
Arguments Raise {A} e.

(** ** The operating system as seen by the program *)

Definition fd := nat.

Inductive sock_kind : Type :=
| RawIcmp    (* AF_INET, SOCK_RAW, IPPROTO_ICMP *)
| DgramUdp.  (* AF_INET, SOCK_DGRAM, IPPROTO_UDP *)

(** What [print] writes: one constructor per call site. *)
Inductive line : Type :=
| Debug (text : string)
| Banner (dst dst_ip : string) (hops : Z)
| Reply (ttl : Z) (ip : string) (time_cost : float) (location : string)
| NoReply (ttl : Z).

(** An address as [recvfrom] returns it. *)
Definition address : Type := string * Z.

(** The system calls, each with its arguments and, where the program looks
    at it, with what the call returned: the error of a failed [bind], the
    datagram of a successful [recvfrom] ([None] when it raised). *)
Inductive event : Type :=
| EvResolve (host : string)
| EvPrint (l : line)
| EvSocket (s : fd) (k : sock_kind)
| EvRcvTimeo (s : fd) (sec usec : Z)
| EvSetTtl (s : fd) (ttl : Z)
| EvBind (s : fd) (host : string) (port : Z) (err : option string)
| EvSendTo (s : fd) (payload : list Byte.byte) (host : string) (port : Z)
| EvRecvFrom (s : fd) (bufsize : Z) (got : option (list Byte.byte * address))
| EvClose (s : fd).

(** [log] is kept newest first; [trace] gives it in chronological order. *)
Record world : Type := mkWorld {
  next_fd : fd;
  open_fds : list fd;
  log : list event
}.

Definition trace (w : world) : list event := rev (log w).

Definition world0 : world := mkWorld 0%nat [] [].

(** ** The answers of the environment *)

(** A record of the GeoIP database, as [geoip_reader.city(ip)] returns it. *)
Record city_response : Type := mkCity {
  country_name : option string;
  city_name : option string;
  latitude : option float;
  longitude : option float
}.

Inductive city_outcome : Type :=
| CityFound (r : city_response)
| AddressNotFoundError
| OtherException (text : string).

(** What one iteration of the loop meets.  The loop probes each TTL at most
    once, so the answers are indexed by the TTL of the probe. *)
Record hop_io : Type := mkHop {
  start_clock : float;                 (* time.time() at the top of the body *)
  bind_error : option string;            (* socket.error raised by bind, if any *)
  incoming : option (list Byte.byte * address);
                                         (* recvfrom: (data, addr), or socket.error *)
  end_clock : float                    (* time.time() after a successful read *)
}.

Record env : Type := mkEnv {
  entropy : nat;                         (* what random.choice draws from *)
  db_found : string -> bool;             (* can the GeoIP file be opened *)
  gethostbyname : string -> string + string;   (* address, or socket.error text *)
  hop : Z -> hop_io;
  city : string -> city_outcome;
  str_float : float -> string          (* str() of a float *)
}.

(** ** The monad *)

Definition M (A : Type) : Type := world -> result A * world.

Definition ret {A} (a : A) : M A := fun w => (Ok a, w).

Definition raise {A} (e : exn) : M A := fun w => (Raise e, w).

Definition bind {A B} (c : M A) (k : A -> M B) : M B :=
  fun w =>
    match c w with
    | (Ok a, w') => k a w'
    | (Raise e, w') => (Raise e, w')
    end.

Notation "x <- c ;; k" := (bind c (fun x => k))
  (at level 61, c at next level, right associativity).
Notation "c ;;; k" := (bind c (fun _ => k))
  (at level 61, right associativity).

Definition emit (e : event) : M unit :=
  fun w => (Ok tt, mkWorld (next_fd w) (open_fds w) (e :: log w)).

Definition print (l : line) : M unit := emit (EvPrint l).

(** [socket.socket(...)]: a descriptor never handed out before. *)
Definition socket_new (k : sock_kind) : M fd :=
  fun w =>
    let s := next_fd w in
    (Ok s, mkWorld (S s) (s :: open_fds w) (EvSocket s k :: log w)).

Definition remove_fd (s : fd) (l : list fd) : list fd :=
  filter (fun x => negb (Nat.eqb x s)) l.

(** [s.close()] *)
Definition close (s : fd) : M unit :=
  fun w => (Ok tt, mkWorld (next_fd w) (remove_fd s (open_fds w)) (EvClose s :: log w)).

(** ** The builtins [random.choice], [range] and [round] *)

Definition range (lo hi : Z) : list Z :=
  map (fun i => lo + Z.of_nat i) (seq 0 (Z.to_nat (hi - lo))).

Definition random_choice (e : env) (l : list Z) : Z :=
  nth (entropy e mod List.length l) l 0.

(** The integer nearest to [n / d] for [d > 0], ties going to the even one. *)
Definition round_half_even (n d : Z) : Z :=
  let q := n / d in
  match 2 * (n mod d) ?= d with
  | Lt => q
  | Gt => q + 1
  | Eq => if Z.even q then q else q + 1
  end.

(** [round(x, 2)] on a float: the exact value of [x] is rounded to two
    decimal places, ties to even, and the float nearest to that decimal is
    returned; infinities and NaN round to themselves, and the sign of a
    zero is kept. *)
Definition py_round2 (x : float) : float :=
  match Prim2SF x with
  | S754_finite s m e =>
      if (0 <=? e)%Z then x
      else
        match round_half_even (Zpos m * 100) (2 ^ (- e)) with
        | Zpos n =>
            SF2Prim (SFdiv prec emax (S754_finite s n 0) (S754_finite false 100 0))
        | _ => SF2Prim (S754_zero s)
        end
  | _ => x
  end.

(** [round((end_time - start_time) * 1000, 2)] *)
Definition time_cost_of (start_time end_time : float) : float :=
  py_round2 ((end_time - start_time) * 1000)%float.

(** ** class Tracer *)

Record Tracer : Type := mkTracer {
  dst : string;
  hops : Z;
  ttl : Z;
  geoip_db_path : string;
  port : Z
}.

Definition set_ttl (self : Tracer) (t : Z) : Tracer :=
  mkTracer (dst self) (hops self) t (geoip_db_path self) (port self).

(** [Tracer.__init__] *)
Definition init (e : env) (dst : string) (hops : Z) (geoip_db_path : string)
  : M Tracer :=
  let port := random_choice e (range 33434 33535) in
  print (Debug ("Tentando abrir o banco de dados GeoIP em " ++ geoip_db_path)) ;;;
  if db_found e geoip_db_path then
    print (Debug ("Banco de dados GeoIP carregado com sucesso de " ++ geoip_db_path)) ;;;
    ret (mkTracer dst hops 1 geoip_db_path port)
  else
    raise (IOError ("Não foi possível encontrar o banco de dados GeoIP no caminho: "
                    ++ geoip_db_path)).

(** [Tracer.create_receiver] *)
Definition create_receiver (self : Tracer) (io : hop_io) : M fd :=
  s <- socket_new RawIcmp ;;
  emit (EvRcvTimeo s 5 0) ;;;
  emit (EvBind s "" (port self) (bind_error io)) ;;;
  match bind_error io with
  | Some err =>
      raise (IOError ("Não foi possível encontrar socket receptor: " ++ err))
  | None => ret s
  end.

(** [Tracer.create_sender] *)
Definition create_sender (self : Tracer) : M fd :=
  s <- socket_new DgramUdp ;;
  emit (EvSetTtl s (ttl self)) ;;;
  ret s.

(** [str()] of an attribute that may be [None]. *)
Definition str_opt {A} (f : A -> string) (o : option A) : string :=
  match o with
  | Some a => f a
  | None => "None"
  end.

(** Truth value of a [str] or [None]. *)
Definition truthy_str (o : option string) : bool :=
  match o with
  | Some s => negb (String.eqb s "")
  | None => false
  end.

(** [Tracer.get_geoip] *)
Definition get_geoip (e : env) (ip : string) : string :=
  match city e ip with
  | CityFound response =>
      let country := str_opt (fun s => s) (country_name response) in
      let coords :=
        " (Lat: " ++ str_opt (str_float e) (latitude response)
        ++ ", Lon: " ++ str_opt (str_float e) (longitude response) ++ ")" in
      if truthy_str (city_name response)
      then str_opt (fun s => s) (city_name response) ++ ", " ++ country ++ coords
      else country ++ coords
  | AddressNotFoundError => "Localização desconhecida"
  | OtherException text => "Erro ao obter localização: " ++ text
  end.

(** The [try] / [except socket.error] / [finally] block of [run]: the read,
    the clock reading that follows a successful read, and the two [close]
    calls of the [finally] clause.  The result is [addr] and [end_time];
    [None] is the [addr = None] left by a read that raised, and the only
    false value [addr] can have: the address of a datagram is a pair. *)
Definition read_reply (receiver sender : fd) (io : hop_io)
  : M (option (address * float)) :=
  emit (EvRecvFrom receiver 1024 (incoming io)) ;;;
  let got :=
    match incoming io with
    | Some (_, addr) => Some (addr, end_clock io)
    | None => None
    end in
  close receiver ;;;
  close sender ;;;
  ret got.

(** How the body of the [while True] loop is left: through the [break] of
    line 77, or by falling through to [self.ttl += 1]. *)
Inductive ctrl : Type :=
| Break
| Fallthrough.

(** The body of the loop, from [start_time = time.time()] to the [print]
    of the hop's line. *)
Definition body (e : env) (dst_ip : string) (self : Tracer) : M ctrl :=
  let io := hop e (ttl self) in
  let start_time := start_clock io in
  receiver <- create_receiver self io ;;
  sender <- create_sender self ;;
  emit (EvSendTo sender [] (dst self) (port self)) ;;;
  got <- read_reply receiver sender io ;;
  match got with
  | Some (addr, end_time) =>
      let time_cost := time_cost_of start_time end_time in
      let location := get_geoip e (fst addr) in
      print (Reply (ttl self) (fst addr) time_cost location) ;;;
      if String.eqb (fst addr) dst_ip then ret Break else ret Fallthrough
  | None =>
      print (NoReply (ttl self)) ;;;
      ret Fallthrough
  end.

(** The [while True] loop of [run].  [fuel] bounds the number of iterations;
    [None] is returned only when it runs out. *)
Fixpoint loop (fuel : nat) (e : env) (dst_ip : string) (self : Tracer)
  : M (option Tracer) :=
  match fuel with
  | O => ret None
  | S fuel' =>
      c <- body e dst_ip self ;;
      match c with
      | Break => ret (Some self)
      | Fallthrough =>
          let self' := set_ttl self (ttl self + 1) in
          if (ttl self' >? hops self')%Z then ret (Some self')
          else loop fuel' e dst_ip self'
      end
  end.

(** The loop ends at the latest when [ttl] passes [hops]; it always runs
    its body once. *)
Definition run_fuel (self : Tracer) : nat :=
  S (Z.to_nat (hops self - ttl self)).

(** [Tracer.run] *)
Definition run (e : env) (self : Tracer) : M (option Tracer) :=
  emit (EvResolve (dst self)) ;;;
  match gethostbyname e (dst self) with
  | inr err =>
      raise (IOError ("Não foi possível encontrar o destino " ++ dst self
                      ++ " : " ++ err))
  | inl dst_ip =>
      print (Banner (dst self) dst_ip (hops self)) ;;;
      loop (run_fuel self) e dst_ip self
  end.

(** What [print] writes for each kind of line. *)
Definition render (e : env) (l : line) : string :=
  match l with
  | Debug text => text
  | Banner dst dst_ip hops =>
      "traceroute to " ++ dst ++ " (" ++ dst_ip ++ "), " ++ str_int hops ++ " hops max"
  | Reply ttl ip time_cost location =>
      ljust4 (str_int ttl) ++ " " ++ ip ++ " " ++ str_float e time_cost
      ++ " ms " ++ location
  | NoReply ttl => ljust4 (str_int ttl) ++ " *"
  end.

(** ** Reading a trace *)

(** The hop result lines among the events, oldest first. *)
Fixpoint hop_lines (tr : list event) : list line :=
  match tr with
  | [] => []
  | EvPrint (Reply t ip c loc) :: tr' => Reply t ip c loc :: hop_lines tr'
  | EvPrint (NoReply t) :: tr' => NoReply t :: hop_lines tr'
  | _ :: tr' => hop_lines tr'
  end.

Definition line_ttl (l : line) : Z :=
  match l with
  | Reply t _ _ _ => t
  | NoReply t => t
  | _ => 0
  end.

(** The TTL values given to [setsockopt(IP_TTL)], that is the TTLs of the
    probes, oldest first. *)
Fixpoint probe_ttls (tr : list event) : list Z :=
  match tr with
  | [] => []
  | EvSetTtl _ t :: tr' => t :: probe_ttls tr'
  | _ :: tr' => probe_ttls tr'
  end.

(** The sockets open after the events of [tr]. *)
Fixpoint open_after (opened : list fd) (tr : list event) : list fd :=
  match tr with
  | [] => opened
  | EvSocket s _ :: tr' => open_after (s :: opened) tr'
  | EvClose s :: tr' => open_after (remove_fd s opened) tr'
  | _ :: tr' => open_after opened tr'
  end.

(** ** A sample session *)

Module Sample.

Definition silent : hop_io := mkHop 100 None None 100.

Definition answer (ip : string) (t0 t1 : float) : hop_io :=
  mkHop t0 None (Some ([], (ip, 0))) t1.

Definition testland : city_response :=
  mkCity (Some "Testland") None (Some 0%float) (Some 0%float).

(** [str()] on the floats that occur in the samples. *)
Definition str_sample (x : float) : string :=
  if (x =? 0)%float then "0.0"
  else if (x =? 500)%float then "500.0"
  else if (x =? -1000)%float then "-1000.0"
  else "nan".

(** [example.test] resolves to 93.184.216.34; only the probe with TTL 2
    is answered, by the destination itself. *)
Definition e : env :=
  mkEnv 7
    (fun _ => true)
    (fun h => if String.eqb h "example.test" then inl "93.184.216.34"
              else inr "Name or service not known")
    (fun t => if (t =? 2)%Z then answer "93.184.216.34" 100 100.5 else silent)
    (fun _ => CityFound testland)
    str_sample.

(** The same session when no hop answers. *)
Definition all_silent : env :=
  mkEnv 7 (fun _ => true) (gethostbyname e) (fun _ => silent) (city e)
    (str_float e).

Definition tracer (n : Z) : Tracer :=
  mkTracer "example.test" n 1 "GeoLite2-City.mmdb" 33441.

End Sample.


(** ** One iteration, unfolded *)

Local Open Scope list_scope.

(** The events of [create_receiver], oldest first, for a socket numbered [r]. *)
Definition setup_events (self : Tracer) (io : hop_io) (r : fd) : list event :=
  [EvSocket r RawIcmp; EvRcvTimeo r 5 0; EvBind r "" (port self) (bind_error io)].

(** The line printed by the iteration that probes with TTL [t]. *)
Definition hop_line (e : env) (t : Z) : line :=
  let io := hop e t in
  match incoming io with
  | Some (_, addr) =>
      Reply t (fst addr)
        (time_cost_of (start_clock io) (end_clock io))
        (get_geoip e (fst addr))
  | None => NoReply t
  end.

(** The events of an iteration whose [bind] succeeds, oldest first. *)
Definition hop_events (e : env) (self : Tracer) (r : fd) : list event :=
  let io := hop e (ttl self) in
  setup_events self io r ++
  [EvSocket (S r) DgramUdp; EvSetTtl (S r) (ttl self);
   EvSendTo (S r) [] (dst self) (port self);
   EvRecvFrom r 1024 (incoming io); EvClose r; EvClose (S r);
   EvPrint (hop_line e (ttl self))].

(** How such an iteration leaves the body. *)
Definition hop_ctrl (e : env) (dst_ip : string) (self : Tracer) : ctrl :=
  match incoming (hop e (ttl self)) with
  | Some (_, addr) => if String.eqb (fst addr) dst_ip then Break else Fallthrough
  | None => Fallthrough
  end.

Definition bind_failure (err : string) : exn :=
  IOError ("Não foi possível encontrar socket receptor: " ++ err)%string.

Definition next_tracer (self : Tracer) : Tracer := set_ttl self (ttl self + 1).

(** The runs of the loop as a relation: [runs e dst_ip self r evs res] says
    that the loop entered with [self], the next free descriptor being [r],
    produces the events [evs] and ends with [res]. *)
Inductive runs (e : env) (dst_ip : string)
  : Tracer -> fd -> list event -> result (option Tracer) -> Prop :=
| runs_abort self r err :
    bind_error (hop e (ttl self)) = Some err ->
    runs e dst_ip self r (setup_events self (hop e (ttl self)) r)
         (Raise (bind_failure err))
| runs_reached self r :
    bind_error (hop e (ttl self)) = None ->
    hop_ctrl e dst_ip self = Break ->
    runs e dst_ip self r (hop_events e self r) (Ok (Some self))
| runs_limit self r :
    bind_error (hop e (ttl self)) = None ->
    hop_ctrl e dst_ip self = Fallthrough ->
    ttl self + 1 > hops self ->
    runs e dst_ip self r (hop_events e self r) (Ok (Some (next_tracer self)))
| runs_next self r evs res :
    bind_error (hop e (ttl self)) = None ->
    hop_ctrl e dst_ip self = Fallthrough ->
    ttl self + 1 <= hops self ->
    runs e dst_ip (next_tracer self) (S (S r)) evs res ->
    runs e dst_ip self r (hop_events e self r ++ evs) res.

(** The world an iteration leaves when its [bind] succeeds. *)
Definition after_hop (e : env) (self : Tracer) (w : world) : world :=
  let r := next_fd w in
  mkWorld (S (S r))
          (remove_fd (S r) (remove_fd r (S r :: r :: open_fds w)))
          (rev (hop_events e self r) ++ log w).

(** The world an iteration leaves when its [bind] fails. *)
Definition after_abort (self : Tracer) (io : hop_io) (w : world) : world :=
  let r := next_fd w in
  mkWorld (S r) (r :: open_fds w) (rev (setup_events self io r) ++ log w).

(** The part of [run] that precedes the loop. *)
Definition prologue (self : Tracer) (dst_ip : string) : list event :=
  [EvResolve (dst self); EvPrint (Banner (dst self) dst_ip (hops self))].

Definition resolve_failure (self : Tracer) (err : string) : exn :=
  IOError ("Não foi possível encontrar o destino " ++ dst self ++ " : " ++ err)%string.

(** ** What the claims speak of *)

(** An event that names the session's peer does so as [host] and [p]: a
    [bind] is to the wildcard address and port [p], a [sendto] carries no
    payload and goes to [(host, p)]. *)
Definition uses_session (host : string) (p : Z) (ev : event) : Prop :=
  match ev with
  | EvBind _ h q _ => h = ""%string /\ q = p
  | EvSendTo _ payload h q => payload = [] /\ h = host /\ q = p
  | _ => True
  end.

(** A [sendto] goes to [(host, p)]. *)
Definition sends_to (host : string) (p : Z) (ev : event) : Prop :=
  match ev with
  | EvSendTo _ _ h q => (h, q) = (host, p)
  | _ => True
  end.

(** Every probe of the run goes to the address the resolver returned. *)
Definition probes_go_to_resolved_address (e : env) (self : Tracer) : Prop :=
  forall dst_ip,
    gethostbyname e (dst self) = inl dst_ip ->
    Forall (sends_to dst_ip (port self)) (trace (snd (run e self world0))).

(** Nothing follows a [bind] that failed, and the run ends with its error. *)
Fixpoint stops_at_failed_bind (res : result (option Tracer)) (tr : list event)
  : Prop :=
  match tr with
  | [] => True
  | EvBind _ _ _ (Some err) :: tr' => tr' = [] /\ res = Raise (bind_failure err)
  | _ :: tr' => stops_at_failed_bind res tr'
  end.

(** The sockets an event names. *)
Definition ev_fds (ev : event) : list fd :=
  match ev with
  | EvSocket s _ => [s]
  | EvRcvTimeo s _ _ => [s]
  | EvSetTtl s _ => [s]
  | EvBind s _ _ _ => [s]
  | EvSendTo s _ _ _ => [s]
  | EvRecvFrom s _ _ => [s]
  | EvClose s => [s]
  | _ => []
  end.

Definition fds_of (tr : list event) : list fd := flat_map ev_fds tr.

(** No socket is open when a line is printed; [opened] are the sockets
    open before [tr]. *)
Fixpoint released_at_prints (opened : list fd) (tr : list event) : Prop :=
  match tr with
  | [] => True
  | EvPrint _ :: tr' => opened = [] /\ released_at_prints opened tr'
  | EvSocket s _ :: tr' => released_at_prints (s :: opened) tr'
  | EvClose s :: tr' => released_at_prints (remove_fd s opened) tr'
  | _ :: tr' => released_at_prints opened tr'
  end.

(** No socket named before a printed line is named after it; [old] are the
    sockets named before the last printed line, [cur] those named since. *)
Fixpoint fresh_per_hop (old cur : list fd) (tr : list event) : Prop :=
  match tr with
  | [] => True
  | EvPrint _ :: tr' => fresh_per_hop (cur ++ old) [] tr'
  | ev :: tr' =>
      (forall s, In s (ev_fds ev) -> ~ In s old) /\
      fresh_per_hop old (ev_fds ev ++ cur) tr'
  end.

(** ** Signs of floats *)

(** The sign of a float that is not NaN. *)
Definition signed_sf (sx : bool) (x : spec_float) : Prop :=
  match x with
  | S754_zero s => s = sx
  | S754_infinity s => s = sx
  | S754_finite s _ _ => s = sx
  | S754_nan => False
  end.

(** Zero of either sign, or positive. *)
Definition nonneg_sf (x : spec_float) : Prop :=
  match x with
  | S754_zero _ => True
  | S754_infinity s => s = false
  | S754_finite s _ _ => s = false
  | S754_nan => False
  end.

Definition finite_sf (x : spec_float) : Prop :=
  match x with
  | S754_zero _ => True
  | S754_finite _ _ _ => True
  | _ => False
  end.

(** [0 <= x] on floats, as Python evaluates it: NaN is not, -0.0 is. *)
Definition nonneg (x : float) : Prop := (0 <=? x)%float = true.


(** The round-trip time of a printed line, when it has one. *)
Definition line_rtt (l : line) : option float :=
  match l with
  | Reply _ _ c _ => Some c
  | _ => None
  end.

(** C8 as it is stated: a hop's line has a round-trip time exactly when an
    address was captured, and that time is [round((end - start) * 1000, 2)]
    and is not negative. *)
Definition rtt_present_and_nonneg (e : env) (self : Tracer) : Prop :=
  Forall (fun l =>
            let io := hop e (line_ttl l) in
            (line_rtt l <> None <-> incoming io <> None) /\
            (forall c, line_rtt l = Some c ->
                       c = py_round2 ((end_clock io - start_clock io) * 1000)%float /\
                       nonneg c))
         (hop_lines (trace (snd (run e self world0)))).

(** The environment [e] with another GeoIP database. *)
Definition with_city (e : env) (c : string -> city_outcome) : env :=
  mkEnv (entropy e) (db_found e) (gethostbyname e) (hop e) c (str_float e).

(** An event without the location text of a hop's line. *)
Definition erase_location (ev : event) : event :=
  match ev with
  | EvPrint (Reply t ip c _) => EvPrint (Reply t ip c "")
  | _ => ev
  end.

(** Sessions that go wrong: the clock is set back during the first hop; the
    second bind fails. *)
Module Faulty.

Definition clock_set_back : env :=
  mkEnv 7 (fun _ => true) (gethostbyname Sample.e)
    (fun _ => Sample.answer "10.0.0.1" 10 9)
    (city Sample.e) (str_float Sample.e).

Definition no_privilege : env :=
  mkEnv 7 (fun _ => true) (gethostbyname Sample.e)
    (fun t => if (t =? 2)%Z
              then mkHop 100 (Some "[Errno 1] Operation not permitted") None 100
              else Sample.silent)
    (city Sample.e) (str_float Sample.e).

End Faulty.

(** ** [main] *)

(** What [main] can end with besides returning. *)
Inductive main_exn : Type :=
| EOFError                     (* input() when the input is exhausted *)
| ValueError (text : string)   (* int() on a text that is not an integer *)
| Propagated (x : exn).        (* raised by Tracer(...) or by tracer.run() *)

(** What [main] did: the prompts [input] wrote, how it ended ([None] when it
    returned), and the world the session left. *)
Record main_result : Type := mkMain {
  prompts : list string;
  outcome : option main_exn;
  final : world
}.

Definition prompt_host : string := "Digite o host de destino: ".

Definition prompt_hops : string :=
  "Digite o número máximo de saltos (padrão é 30): ".

(** The default of [geoip_db_path] in [Tracer.__init__]. *)
Definition default_db : string := "GeoLite2-City.mmdb".

(** [main]: [stdin] holds the lines still to be read, [int_of] is the
    builtin [int] on a [str] ([None] when it raises [ValueError]). *)
Definition main (e : env) (int_of : string -> option Z) (stdin : list string)
  : main_result :=
  match stdin with
  | [] => mkMain [prompt_host] (Some EOFError) world0
  | host :: stdin' =>
      match stdin' with
      | [] => mkMain [prompt_host; prompt_hops] (Some EOFError) world0
      | max_hops :: _ =>
          let asked := [prompt_host; prompt_hops] in
          let parsed :=
            if String.eqb max_hops "" then Some 30 else int_of max_hops in
          match parsed with
          | None => mkMain asked (Some (ValueError max_hops)) world0
          | Some n =>
              match init e host n default_db world0 with
              | (Raise x, w) => mkMain asked (Some (Propagated x)) w
              | (Ok tracer, w) =>
                  match run e tracer w with
                  | (Raise x, w') => mkMain asked (Some (Propagated x)) w'
                  | (Ok _, w') => mkMain asked None w'
                  end
              end
          end
      end
  end.

(** ** Further readings of a trace *)

(** A [bind] that did not fail, or any other event. *)
Definition bind_ok (ev : event) : Prop :=
  match ev with
  | EvBind _ _ _ (Some _) => False
  | _ => True
  end.

(** The line reports an answer from [dst_ip]. *)
Definition from_destination (dst_ip : string) (l : line) : bool :=
  match l with
  | Reply _ ip _ _ => String.eqb ip dst_ip
  | _ => false
  end.

(** Some hop result of the trace is an answer from [dst_ip]. *)
Definition reached (dst_ip : string) (tr : list event) : bool :=
  existsb (from_destination dst_ip) (hop_lines tr).

(** The world [__init__] leaves when the database opens. *)
Definition world_after_init (path : string) : world :=
  mkWorld 0%nat []
    [EvPrint (Debug ("Banco de dados GeoIP carregado com sucesso de " ++ path)%string);
     EvPrint (Debug ("Tentando abrir o banco de dados GeoIP em " ++ path)%string)].

(** [int] on the decimal texts the samples use. *)
Definition int_sample (s : string) : option Z :=
  option_map Z.of_int (NilZero.int_of_string s).

(** The last character of a text. *)
Fixpoint last_char (s : string) : option ascii :=
  match s with
  | EmptyString => None
  | String c EmptyString => Some c
  | String _ s' => last_char s'
  end.

Definition unknown_location : string := "Localização desconhecida".

Definition is_resolve (ev : event) : bool :=
  match ev with
  | EvResolve _ => true
  | _ => false
  end.

Definition is_banner (ev : event) : bool :=
  match ev with
  | EvPrint (Banner _ _ _) => true
  | _ => false
  end.

(** * The program with the failures of the calls it does not guard

    Above, the calls the program makes outside any handler are taken to
    return.  Here they can raise as well: the two [socket] calls, the two
    [setsockopt] calls and [sendto]; [gethostbyname] can raise something
    other than [socket.error], and the opening of the database something
    other than [FileNotFoundError].  No handler of the program catches
    these, so they leave [run] or [main] as they are.  ([print], [close]
    and [time.time] are still taken to return.) *)
Module Os.

(** What leaves [run]. *)
Inductive failure : Type :=
| Program (x : exn)        (* an IOError the program raises itself *)
| OSError (text : string)  (* an OSError raised by a call it does not guard *)
| Other (text : string).   (* an exception of a class no handler names *)

Inductive outcome (A : Type) : Type :=
| Done (a : A)
| Failed (f : failure).
Arguments Done {A} a.
Arguments Failed {A} f.

Definition IO (A : Type) : Type := world -> outcome A * world.

Definition pure {A} (a : A) : IO A := fun w => (Done a, w).

Definition fail {A} (f : failure) : IO A := fun w => (Failed f, w).

Definition andthen {A B} (c : IO A) (k : A -> IO B) : IO B :=
  fun w =>
    match c w with
    | (Done a, w') => k a w'
    | (Failed f, w') => (Failed f, w')
    end.

(** A computation of the program above, its [IOError] kept. *)
Definition lift {A} (c : M A) : IO A :=
  fun w =>
    match c w with
    | (Ok a, w') => (Done a, w')
    | (Raise x, w') => (Failed (Program x), w')
    end.

(** A call that returns, or raises what the system says. *)
Definition call (answer : option failure) : IO unit :=
  match answer with
  | Some f => fail f
  | None => pure tt
  end.

Notation "x <~ c ;; k" := (andthen c (fun x => k))
  (at level 61, c at next level, right associativity).
Notation "c ~;; k" := (andthen c (fun _ => k))
  (at level 61, right associativity).

(** What the unguarded calls of one iteration meet, by TTL of the probe. *)
Record calls : Type := mkCalls {
  raw_socket_error : option failure;   (* socket(AF_INET, SOCK_RAW, ICMP) *)
  rcvtimeo_error : option failure;     (* setsockopt(SO_RCVTIMEO) *)
  udp_socket_error : option failure;   (* socket(AF_INET, SOCK_DGRAM, UDP) *)
  sendto_error : option failure        (* sendto *)
}.

Record sys : Type := mkSys {
  base : env;
  unguarded : Z -> calls;
  resolve_escape : string -> option failure;
      (* gethostbyname raising something that is not socket.error *)
  db_escape : string -> option failure
      (* the database reader raising something that is not FileNotFoundError *)
}.

(** [setsockopt(IPPROTO_IP, IP_TTL, ttl)]: the system accepts -1 and the
    TTLs from 1 to 255 and refuses the other C integers; an integer that is
    no C integer is refused by the call itself. *)
Definition ip_ttl_failure (t : Z) : option failure :=
  if ((t <? - 2147483648) || (2147483647 <? t))%Z
  then Some (Other "TypeError: a bytes-like object is required, not 'int'")
  else if ((t =? -1) || ((1 <=? t) && (t <=? 255)))%Z
       then None
       else Some (OSError "[Errno 22] Invalid argument").

(** [Tracer.create_receiver] *)
Definition create_receiver (self : Tracer) (io : hop_io) (c : calls) : IO fd :=
  call (raw_socket_error c) ~;;
  s <~ lift (socket_new RawIcmp) ;;
  call (rcvtimeo_error c) ~;;
  lift (emit (EvRcvTimeo s 5 0)) ~;;
  lift (emit (EvBind s "" (port self) (bind_error io))) ~;;
  match bind_error io with
  | Some err =>
      fail (Program (IOError ("Não foi possível encontrar socket receptor: " ++ err)%string))
  | None => pure s
  end.

(** [Tracer.create_sender] *)
Definition create_sender (self : Tracer) (c : calls) : IO fd :=
  call (udp_socket_error c) ~;;
  s <~ lift (socket_new DgramUdp) ;;
  call (ip_ttl_failure (ttl self)) ~;;
  lift (emit (EvSetTtl s (ttl self))) ~;;
  pure s.

(** The body of the loop of [run]: the calls of lines 58 to 60 stand before
    the [try] and what they raise leaves the body at once. *)
Definition body (s : sys) (dst_ip : string) (self : Tracer) : IO ctrl :=
  let io := hop (base s) (ttl self) in
  let c := unguarded s (ttl self) in
  let start_time := start_clock io in
  receiver <~ create_receiver self io c ;;
  sender <~ create_sender self c ;;
  call (sendto_error c) ~;;
  lift (emit (EvSendTo sender [] (dst self) (port self))) ~;;
  got <~ lift (read_reply receiver sender io) ;;
  match got with
  | Some (addr, end_time) =>
      let time_cost := time_cost_of start_time end_time in
      let location := get_geoip (base s) (fst addr) in
      lift (print (Reply (ttl self) (fst addr) time_cost location)) ~;;
      if String.eqb (fst addr) dst_ip then pure Break else pure Fallthrough
  | None =>
      lift (print (NoReply (ttl self))) ~;;
      pure Fallthrough
  end.

(** The [while True] loop of [run]. *)
Fixpoint loop (fuel : nat) (s : sys) (dst_ip : string) (self : Tracer)
  : IO (option Tracer) :=
  match fuel with
  | O => pure None
  | S fuel' =>
      c <~ body s dst_ip self ;;
      match c with
      | Break => pure (Some self)
      | Fallthrough =>
          let self' := set_ttl self (ttl self + 1) in
          if (ttl self' >? hops self')%Z then pure (Some self')
          else loop fuel' s dst_ip self'
      end
  end.

(** [Tracer.run] *)
Definition run (s : sys) (self : Tracer) : IO (option Tracer) :=
  lift (emit (EvResolve (dst self))) ~;;
  match resolve_escape s (dst self) with
  | Some f => fail f
  | None =>
      match gethostbyname (base s) (dst self) with
      | inr err =>
          fail (Program (IOError ("Não foi possível encontrar o destino "
                                  ++ dst self ++ " : " ++ err)%string))
      | inl dst_ip =>
          lift (print (Banner (dst self) dst_ip (hops self))) ~;;
          loop (run_fuel self) s dst_ip self
      end
  end.

(** [Tracer.__init__] *)
Definition init (s : sys) (dst : string) (hops : Z) (geoip_db_path : string)
  : IO Tracer :=
  let port := random_choice (base s) (range 33434 33535) in
  lift (print (Debug ("Tentando abrir o banco de dados GeoIP em "
                      ++ geoip_db_path)%string)) ~;;
  match db_escape s geoip_db_path with
  | Some f => fail f
  | None =>
      if db_found (base s) geoip_db_path then
        lift (print (Debug ("Banco de dados GeoIP carregado com sucesso de "
                            ++ geoip_db_path)%string)) ~;;
        pure (mkTracer dst hops 1 geoip_db_path port)
      else
        fail (Program (IOError ("Não foi possível encontrar o banco de dados GeoIP no caminho: "
                                ++ geoip_db_path)%string))
  end.

(** What [main] can end with besides returning. *)
Inductive stop : Type :=
| NoInput                    (* EOFError of input() *)
| NotANumber (text : string) (* ValueError of int() *)
| Session (f : failure).     (* raised by Tracer(...) or by tracer.run() *)

Record report : Type := mkReport {
  asked : list string;
  ended : option stop;
  left : world
}.

(** [main] *)
Definition main (s : sys) (int_of : string -> option Z) (stdin : list string)
  : report :=
  match stdin with
  | [] => mkReport [prompt_host] (Some NoInput) world0
  | host :: stdin' =>
      match stdin' with
      | [] => mkReport [prompt_host; prompt_hops] (Some NoInput) world0
      | max_hops :: _ =>
          let both := [prompt_host; prompt_hops] in
          let parsed :=
            if String.eqb max_hops "" then Some 30 else int_of max_hops in
          match parsed with
          | None => mkReport both (Some (NotANumber max_hops)) world0
          | Some n =>
              match init s host n default_db world0 with
              | (Failed f, w) => mkReport both (Some (Session f)) w
              | (Done tracer, w) =>
                  match run s tracer w with
                  | (Failed f, w') => mkReport both (Some (Session f)) w'
                  | (Done _, w') => mkReport both None w'
                  end
              end
          end
      end
  end.

(** How an iteration is left before its read: the events it has produced,
    the sockets it has created, newest first, and what is raised; [None]
    when the iteration reaches the read. *)
Definition leaves_early (s : sys) (self : Tracer) (r : fd)
  : option (list event * list fd * failure) :=
  let io := hop (base s) (ttl self) in
  let c := unguarded s (ttl self) in
  match raw_socket_error c with
  | Some f => Some ([], [], f)
  | None =>
  match rcvtimeo_error c with
  | Some f => Some ([EvSocket r RawIcmp], [r], f)
  | None =>
  match bind_error io with
  | Some err => Some (setup_events self io r, [r], Program (bind_failure err))
  | None =>
  match udp_socket_error c with
  | Some f => Some (setup_events self io r, [r], f)
  | None =>
  match ip_ttl_failure (ttl self) with
  | Some f =>
      Some (setup_events self io r ++ [EvSocket (S r) DgramUdp], [S r; r], f)
  | None =>
  match sendto_error c with
  | Some f =>
      Some (setup_events self io r
            ++ [EvSocket (S r) DgramUdp; EvSetTtl (S r) (ttl self)],
            [S r; r], f)
  | None => None
  end end end end end end.

(** The world such an iteration leaves. *)
Definition after_early (evs : list event) (opened : list fd) (w : world) : world :=
  mkWorld (List.length opened + next_fd w)%nat (opened ++ open_fds w)
          (rev evs ++ log w).

(** The runs of the loop, as for [runs] above. *)
Inductive runs (s : sys) (dst_ip : string)
  : Tracer -> fd -> list event -> outcome (option Tracer) -> Prop :=
| runs_early self r evs opened f :
    leaves_early s self r = Some (evs, opened, f) ->
    runs s dst_ip self r evs (Failed f)
| runs_reached self r :
    leaves_early s self r = None ->
    hop_ctrl (base s) dst_ip self = Break ->
    runs s dst_ip self r (hop_events (base s) self r) (Done (Some self))
| runs_limit self r :
    leaves_early s self r = None ->
    hop_ctrl (base s) dst_ip self = Fallthrough ->
    ttl self + 1 > hops self ->
    runs s dst_ip self r (hop_events (base s) self r)
         (Done (Some (next_tracer self)))
| runs_next self r evs res :
    leaves_early s self r = None ->
    hop_ctrl (base s) dst_ip self = Fallthrough ->
    ttl self + 1 <= hops self ->
    runs s dst_ip (next_tracer self) (S (S r)) evs res ->
    runs s dst_ip self r (hop_events (base s) self r ++ evs) res.

End Os.

(** The result of the lookup of [run]: the resolved address, or what is
    raised. *)
Definition os_lookup (s : Os.sys) (self : Tracer) : string + Os.failure :=
  match Os.resolve_escape s (dst self) with
  | Some f => inr f
  | None =>
      match gethostbyname (Os.base s) (dst self) with
      | inr err => inr (Os.Program (resolve_failure self err))
      | inl dst_ip => inl dst_ip
      end
  end.

(** At the iteration for TTL [t] no call to the system fails: neither
    the bind nor one of the calls the program does not guard. *)
Definition no_call_fails (s : Os.sys) (t : Z) : Prop :=
  Os.raw_socket_error (Os.unguarded s t) = None /\
  Os.rcvtimeo_error (Os.unguarded s t) = None /\
  bind_error (hop (Os.base s) t) = None /\
  Os.udp_socket_error (Os.unguarded s t) = None /\
  Os.sendto_error (Os.unguarded s t) = None.

(** A system on which no unguarded call fails, whatever the TTL. *)
Definition calm : Os.calls := Os.mkCalls None None None None.

Definition calm_sys (e : env) : Os.sys :=
  Os.mkSys e (fun _ => calm) (fun _ => None) (fun _ => None).

(** C3 as it is stated: when the name resolves, no call to the system fails
    and no captured address is the destination's, the hop results are those
    of the TTLs 1 to [hops] and the run ends normally. *)
Definition every_limit_is_exhausted (s : Os.sys) (self : Tracer) : Prop :=
  forall dst_ip,
    os_lookup s self = inl dst_ip ->
    (forall t, no_call_fails s t) ->
    (forall t data addr,
        incoming (hop (Os.base s) t) = Some (data, addr) -> fst addr <> dst_ip) ->
    map line_ttl (hop_lines (trace (snd (Os.run s self world0))))
    = range 1 (hops self + 1) /\
    exists self', fst (Os.run s self world0) = Os.Done (Some self').

(** C5 as it is stated: on every way out of an iteration the sockets it
    acquired have been closed, so every socket a run creates is closed in
    that run. *)
Definition every_socket_is_closed (s : Os.sys) (self : Tracer) : Prop :=
  forall sock kind,
    In (EvSocket sock kind) (trace (snd (Os.run s self world0))) ->
    In (EvClose sock) (trace (snd (Os.run s self world0))).

(** A system on which the first [sendto] raises. *)
Definition unreachable_sys : Os.sys :=
  Os.mkSys Sample.all_silent
    (fun _ => Os.mkCalls None None None
                (Some (Os.OSError "[Errno 101] Network is unreachable")))
    (fun _ => None) (fun _ => None).

(** The calls the program does not guard return at the iteration for TTL
    [t]: the two [socket] calls, the two [setsockopt] calls and [sendto]. *)
Definition unguarded_calls_return (s : Os.sys) (t : Z) : Prop :=
  Os.raw_socket_error (Os.unguarded s t) = None /\
  Os.rcvtimeo_error (Os.unguarded s t) = None /\
  Os.udp_socket_error (Os.unguarded s t) = None /\
  Os.ip_ttl_failure t = None /\
  Os.sendto_error (Os.unguarded s t) = None.

(** What the calls of an iteration raise, in the order of the calls. *)
Definition raised_by_calls (s : Os.sys) (self : Tracer) : list (option Os.failure) :=
  let io := hop (Os.base s) (ttl self) in
  let c := Os.unguarded s (ttl self) in
  [Os.raw_socket_error c; Os.rcvtimeo_error c;
   option_map (fun err => Os.Program (bind_failure err)) (bind_error io);
   Os.udp_socket_error c; Os.ip_ttl_failure (ttl self); Os.sendto_error c].

(** C5 read on one iteration: however the body is left, the sockets it
    opened are closed. *)
Definition every_exit_releases (s : Os.sys) (self : Tracer) : Prop :=
  forall dst_ip w,
    open_fds w = [] ->
    open_fds (snd (Os.body s dst_ip self w)) = [].

(** The ways an iteration is left early, one goal for each. *)
Ltac early_cases H :=
  unfold Os.leaves_early in H;
  repeat match type of H with
         | context [match ?x with _ => _ end] => destruct x eqn:?
         end;
  inversion H; subst; clear H.

(** * Properties *)

(** ** Lemmas on the monad and on one iteration *)

Lemma trace_log (n : fd) (o : list fd) (evs l : list event) :
  trace (mkWorld n o (rev evs ++ l)) = rev l ++ evs.
Proof.
  unfold trace; simpl. now rewrite rev_app_distr, rev_involutive.
Qed.

Lemma body_eq (e : env) (dst_ip : string) (self : Tracer) (w : world) :
  body e dst_ip self w =
  let r := next_fd w in
  let io := hop e (ttl self) in
  match bind_error io with
  | Some err =>
      (Raise (bind_failure err),
       mkWorld (S r) (r :: open_fds w) (rev (setup_events self io r) ++ log w))
  | None =>
      (Ok (hop_ctrl e dst_ip self),
       mkWorld (S (S r))
               (remove_fd (S r) (remove_fd r (S r :: r :: open_fds w)))
               (rev (hop_events e self r) ++ log w))
  end.
Proof.
  unfold body, hop_events, hop_line, hop_ctrl, setup_events, create_receiver,
    create_sender, read_reply, bind, socket_new, emit, print, close, ret,
    raise, bind_failure.
  simpl.
  destruct (bind_error (hop e (ttl self))) as [err|]; simpl; [reflexivity|].
  destruct (incoming (hop e (ttl self))) as [[data addr]|]; simpl;
    [destruct (String.eqb (fst addr) dst_ip)|]; reflexivity.
Qed.

Lemma loop_S (fuel : nat) (e : env) (dst_ip : string) (self : Tracer) (w : world) :
  loop (S fuel) e dst_ip self w =
  match bind_error (hop e (ttl self)) with
  | Some err => (Raise (bind_failure err), after_abort self (hop e (ttl self)) w)
  | None =>
      match hop_ctrl e dst_ip self with
      | Break => (Ok (Some self), after_hop e self w)
      | Fallthrough =>
          if (ttl self + 1 >? hops self)%Z
          then (Ok (Some (next_tracer self)), after_hop e self w)
          else loop fuel e dst_ip (next_tracer self) (after_hop e self w)
      end
  end.
Proof.
  change (loop (S fuel) e dst_ip self w) with
    (bind (body e dst_ip self)
       (fun c => match c with
                 | Break => ret (Some self)
                 | Fallthrough =>
                     if (ttl (next_tracer self) >? hops (next_tracer self))%Z
                     then ret (Some (next_tracer self))
                     else loop fuel e dst_ip (next_tracer self)
                 end) w).
  unfold bind. rewrite body_eq. cbv zeta.
  destruct (bind_error (hop e (ttl self))); [reflexivity|].
  destruct (hop_ctrl e dst_ip self); [reflexivity|].
  change (ttl (next_tracer self)) with (ttl self + 1).
  change (hops (next_tracer self)) with (hops self).
  destruct (ttl self + 1 >? hops self)%Z; reflexivity.
Qed.

(** With enough fuel the loop is one of the runs of [runs], and the fuel
    does not run out. *)
Lemma loop_runs (e : env) (dst_ip : string) (fuel : nat) :
  forall (self : Tracer) (w : world),
    (Z.to_nat (hops self - ttl self) < fuel)%nat ->
    exists evs res,
      fst (loop fuel e dst_ip self w) = res /\
      trace (snd (loop fuel e dst_ip self w)) = trace w ++ evs /\
      runs e dst_ip self (next_fd w) evs res.
Proof.
  induction fuel as [|fuel IH]; intros self w Hfuel; [lia|].
  rewrite loop_S.
  destruct (bind_error (hop e (ttl self))) as [err|] eqn:Hb.
  - exists (setup_events self (hop e (ttl self)) (next_fd w)), (Raise (bind_failure err)).
    repeat split.
    + unfold after_abort. cbv zeta. apply trace_log.
    + now apply runs_abort.
  - destruct (hop_ctrl e dst_ip self) eqn:Hc.
    + exists (hop_events e self (next_fd w)), (Ok (Some self)).
      repeat split.
      * apply trace_log.
      * now apply runs_reached.
    + destruct (ttl self + 1 >? hops self)%Z eqn:Hlim.
      * exists (hop_events e self (next_fd w)), (Ok (Some (next_tracer self))).
        repeat split.
        -- apply trace_log.
        -- apply runs_limit; trivial. lia.
      * destruct (IH (next_tracer self) (after_hop e self w)) as (evs & res & Hr & Ht & Hruns).
        { simpl. lia. }
        exists (hop_events e self (next_fd w) ++ evs), res.
        repeat split; trivial.
        -- rewrite Ht. unfold after_hop. cbv zeta. rewrite trace_log.
           now rewrite app_assoc.
        -- apply runs_next; trivial. lia.
Qed.

Lemma runs_not_out_of_fuel (e : env) (dst_ip : string) self r evs res :
  runs e dst_ip self r evs res -> res <> Ok None.
Proof.
  induction 1; trivial; discriminate.
Qed.

(** [run] from the empty world: either the name does not resolve and nothing
    else happens, or the prologue is followed by a run of the loop. *)
Lemma run_runs (e : env) (self : Tracer) :
  match gethostbyname e (dst self) with
  | inr err =>
      fst (run e self world0) = Raise (resolve_failure self err) /\
      trace (snd (run e self world0)) = [EvResolve (dst self)]
  | inl dst_ip =>
      exists evs res,
        fst (run e self world0) = res /\
        trace (snd (run e self world0)) = prologue self dst_ip ++ evs /\
        runs e dst_ip self 0%nat evs res
  end.
Proof.
  unfold run, bind, emit, print, raise. simpl.
  destruct (gethostbyname e (dst self)) as [dst_ip|err].
  - simpl.
    destruct (loop_runs e dst_ip (run_fuel self) self
                (mkWorld 0%nat []
                   [EvPrint (Banner (dst self) dst_ip (hops self)); EvResolve (dst self)]))
      as (evs & res & Hr & Ht & Hruns).
    { unfold run_fuel. lia. }
    exists evs, res. repeat split; trivial.
  - split; reflexivity.
Qed.

(** The sample session is the one [__init__] builds, and what it prints. *)
Lemma sample_session :
  fst (init Sample.e "example.test" 3 "GeoLite2-City.mmdb" world0)
  = Ok (Sample.tracer 3) /\
  map (render Sample.e)
      (hop_lines (trace (snd (run Sample.e (Sample.tracer 3) world0))))
  = ["1    *"; "2    93.184.216.34 500.0 ms Testland (Lat: 0.0, Lon: 0.0)"]%string.
Proof.
  split; vm_compute; reflexivity.
Qed.

(** [run] never runs out of the fuel it gives to the loop. *)
Lemma run_terminates (e : env) (self : Tracer) :
  fst (run e self world0) <> Ok None.
Proof.
  pose proof (run_runs e self) as Hrun.
  destruct (gethostbyname e (dst self)) as [ip|err].
  - destruct Hrun as (evs & res & Hres & _ & Hruns). rewrite Hres.
    eapply runs_not_out_of_fuel; eauto.
  - destruct Hrun as (Hres & _). rewrite Hres. discriminate.
Qed.

(** ** Lists of consecutive integers *)

Lemma range_empty (lo : Z) : range lo lo = [].
Proof.
  unfold range. now rewrite Z.sub_diag.
Qed.

Lemma range_cons (lo hi : Z) : lo < hi -> range lo hi = lo :: range (lo + 1) hi.
Proof.
  intros H. unfold range.
  replace (Z.to_nat (hi - lo)) with (S (Z.to_nat (hi - (lo + 1)))) by lia.
  rewrite <- cons_seq, <- seq_shift, map_cons, map_map. f_equal.
  - simpl. lia.
  - apply map_ext. intros i. lia.
Qed.

Lemma range_one (lo : Z) : range lo (lo + 1) = [lo].
Proof.
  rewrite range_cons by lia. now rewrite range_empty.
Qed.

Lemma range_length (lo hi : Z) : List.length (range lo hi) = Z.to_nat (hi - lo).
Proof.
  unfold range. now rewrite length_map, length_seq.
Qed.

Lemma range_last (lo hi : Z) : lo < hi -> last (range lo hi) 0 = hi - 1.
Proof.
  intros H. unfold range.
  replace (Z.to_nat (hi - lo)) with (Z.to_nat (hi - lo - 1) + 1)%nat by lia.
  rewrite seq_app, map_app. simpl. rewrite last_last. lia.
Qed.

(** ** Reading the events of an iteration *)

Lemma hop_lines_app (a b : list event) :
  hop_lines (a ++ b) = hop_lines a ++ hop_lines b.
Proof.
  induction a as [|ev a IH]; simpl; trivial.
  destruct ev as [| [] | | | | | | |]; simpl; now rewrite ?IH.
Qed.

Lemma probe_ttls_app (a b : list event) :
  probe_ttls (a ++ b) = probe_ttls a ++ probe_ttls b.
Proof.
  induction a as [|ev a IH]; simpl; trivial.
  destruct ev; simpl; now rewrite ?IH.
Qed.

Lemma hop_line_ttl (e : env) (t : Z) : line_ttl (hop_line e t) = t.
Proof.
  unfold hop_line. now destruct (incoming (hop e t)) as [[d a]|].
Qed.

Lemma hop_lines_hop_events (e : env) (self : Tracer) (r : fd) :
  hop_lines (hop_events e self r) = [hop_line e (ttl self)].
Proof.
  unfold hop_events, hop_line. simpl.
  now destruct (incoming (hop e (ttl self))) as [[d a]|].
Qed.

Lemma probe_ttls_hop_events (e : env) (self : Tracer) (r : fd) :
  probe_ttls (hop_events e self r) = [ttl self].
Proof. reflexivity. Qed.

Lemma hop_events_last (e : env) (self : Tracer) (r : fd) :
  exists pre, hop_events e self r = pre ++ [EvPrint (hop_line e (ttl self))]
              /\ hop_lines pre = [].
Proof.
  eexists (_ :: _ :: _ :: _ :: _ :: _ :: _ :: _ :: _ :: nil).
  split; reflexivity.
Qed.

(** A reply from the destination leaves the body through [break]. *)
Lemma hop_ctrl_break (e : env) (dst_ip : string) (self : Tracer) :
  hop_ctrl e dst_ip self = Break <->
  exists data addr,
    incoming (hop e (ttl self)) = Some (data, addr) /\ fst addr = dst_ip.
Proof.
  unfold hop_ctrl. destruct (incoming (hop e (ttl self))) as [[d a]|].
  - destruct (String.eqb_spec (fst a) dst_ip) as [Heq|Hne]; split.
    + intros _. now exists d, a.
    + trivial.
    + discriminate.
    + intros (d' & a' & H & Ha). inversion H; subst. contradiction.
  - split; [discriminate|]. intros (d' & a' & H & _). discriminate.
Qed.

(** ** The TTLs a run goes through *)

Lemma runs_ttls (e : env) (dst_ip : string) self r evs res :
  runs e dst_ip self r evs res ->
  exists n : nat,
    Z.of_nat n <= Z.max 1 (hops self - ttl self + 1) /\
    probe_ttls evs = range (ttl self) (ttl self + Z.of_nat n) /\
    map line_ttl (hop_lines evs) = range (ttl self) (ttl self + Z.of_nat n).
Proof.
  induction 1 as [self r err Hb | self r Hb Hc | self r Hb Hc Hlim
                 | self r evs res Hb Hc Hlim Hruns IH].
  - exists 0%nat. rewrite Z.add_0_r, range_empty. repeat split; trivial. lia.
  - exists 1%nat. rewrite hop_lines_hop_events, probe_ttls_hop_events.
    simpl map. rewrite hop_line_ttl. change (Z.of_nat 1) with 1.
    rewrite range_one. repeat split; trivial. lia.
  - exists 1%nat. rewrite hop_lines_hop_events, probe_ttls_hop_events.
    simpl map. rewrite hop_line_ttl. change (Z.of_nat 1) with 1.
    rewrite range_one. repeat split; trivial. lia.
  - destruct IH as (n & Hn & Hp & Hl).
    change (ttl (next_tracer self)) with (ttl self + 1) in *.
    change (hops (next_tracer self)) with (hops self) in *.
    exists (S n).
    rewrite probe_ttls_app, hop_lines_app, map_app, hop_lines_hop_events,
      probe_ttls_hop_events, Hp, Hl.
    simpl map. rewrite hop_line_ttl.
    rewrite (range_cons (ttl self) (ttl self + Z.of_nat (S n))) by lia.
    replace (ttl self + Z.of_nat (S n)) with (ttl self + 1 + Z.of_nat n) by lia.
    repeat split; trivial. lia.
Qed.

Lemma runs_exhaust (e : env) (dst_ip : string) self r evs res :
  runs e dst_ip self r evs res ->
  ttl self <= hops self ->
  (forall t, ttl self <= t <= hops self -> bind_error (hop e t) = None) ->
  (forall t data addr, ttl self <= t <= hops self ->
     incoming (hop e t) = Some (data, addr) -> fst addr <> dst_ip) ->
  res = Ok (Some (set_ttl self (hops self + 1))) /\
  map line_ttl (hop_lines evs) = range (ttl self) (hops self + 1).
Proof.
  induction 1 as [self r err Hb | self r Hb Hc | self r Hb Hc Hlim
                 | self r evs res Hb Hc Hlim Hruns IH];
    intros Hle Hbind Hother.
  - rewrite Hbind in Hb by lia. discriminate.
  - apply hop_ctrl_break in Hc. destruct Hc as (d & a & Hin & Ha).
    exfalso. apply (Hother (ttl self) d a); trivial. lia.
  - assert (Heq : ttl self = hops self) by lia.
    rewrite hop_lines_hop_events. simpl map. rewrite hop_line_ttl.
    unfold next_tracer. rewrite Heq, range_one. now split.
  - change (ttl (next_tracer self)) with (ttl self + 1) in IH.
    change (hops (next_tracer self)) with (hops self) in IH.
    destruct IH as (Hres & Hl); [lia | | |].
    + intros t Ht. apply Hbind. lia.
    + intros t d a Ht. apply Hother. lia.
    + split; [exact Hres|].
      rewrite hop_lines_app, map_app, hop_lines_hop_events, Hl.
      simpl map. rewrite hop_line_ttl.
      now rewrite (range_cons (ttl self) (hops self + 1)) by lia.
Qed.

Lemma In_range (x lo hi : Z) : In x (range lo hi) -> lo <= x < hi.
Proof.
  unfold range. rewrite in_map_iff. intros (i & Hx & Hi).
  apply in_seq in Hi. lia.
Qed.

(** C10. With a maximum hop count below 1 the loop still runs its body
    once: when the name resolves and the first bind succeeds, the run
    consists of the prologue and of one whole iteration with TTL 1, one
    hop result is emitted, and the loop ends there, through [break] or
    through the limit test that follows the increment of the counter. *)
Theorem one_iteration_below_one (e : env) (self : Tracer) (dst_ip : string) :
  ttl self = 1 ->
  hops self < 1 ->
  gethostbyname e (dst self) = inl dst_ip ->
  bind_error (hop e 1) = None ->
  let out := run e self world0 in
  let tr := trace (snd out) in
  tr = prologue self dst_ip ++ hop_events e self 0%nat /\
  probe_ttls tr = [1] /\
  hop_lines tr = [hop_line e (ttl self)] /\
  fst out = match hop_ctrl e dst_ip self with
            | Break => Ok (Some self)
            | Fallthrough => Ok (Some (set_ttl self 2))
            end.
Proof.
  intros Httl Hhops Hip Hbind out tr. subst out tr.
  pose proof (run_runs e self) as Hrun. rewrite Hip in Hrun.
  destruct Hrun as (evs & res & Hres & Htr & Hruns).
  rewrite Htr, Hres, probe_ttls_app, hop_lines_app. simpl app.
  inversion Hruns as [s r err Hb | s r Hb Hc | s r Hb Hc Hlim
                     | s r evs' res' Hb Hc Hlim Hruns']; subst.
  - rewrite Httl, Hbind in Hb. discriminate.
  - rewrite Hc, hop_lines_hop_events, probe_ttls_hop_events, Httl. auto.
  - rewrite Hc, hop_lines_hop_events, probe_ttls_hop_events.
    unfold next_tracer. rewrite Httl. auto.
  - lia.
Qed.

Lemma one_iteration_below_one_witness :
  hop_lines (trace (snd (run Sample.e (Sample.tracer 0) world0))) = [NoReply 1] /\
  fst (run Sample.e (Sample.tracer 0) world0)
  = Ok (Some (set_ttl (Sample.tracer 0) 2)).
Proof.
  destruct (one_iteration_below_one Sample.e (Sample.tracer 0) "93.184.216.34")
    as (_ & _ & H3 & H4).
  - reflexivity.
  - simpl. lia.
  - reflexivity.
  - reflexivity.
  - split; [exact H3 | exact H4].
Defined.

(** ** Reaching the destination *)

Lemma hop_line_from_destination (e : env) (dst_ip : string) (self : Tracer) t ip c loc :
  hop_line e (ttl self) = Reply t ip c loc -> ip = dst_ip ->
  hop_ctrl e dst_ip self = Break.
Proof.
  unfold hop_line, hop_ctrl.
  destruct (incoming (hop e (ttl self))) as [[d a]|]; [|discriminate].
  intros H Hip. inversion H; subst. now rewrite String.eqb_refl.
Qed.

Lemma runs_reached_last (e : env) (dst_ip : string) self r evs res :
  runs e dst_ip self r evs res ->
  forall t ip c loc,
    In (Reply t ip c loc) (hop_lines evs) -> ip = dst_ip ->
    (exists self', res = Ok (Some self') /\ ttl self' = t /\
                   hop_line e (ttl self') = Reply t ip c loc) /\
    (exists pre, evs = pre ++ [EvPrint (Reply t ip c loc)]) /\
    Forall (fun l => line_ttl l <= t) (hop_lines evs).
Proof.
  induction 1 as [self r err Hb | self r Hb Hc | self r Hb Hc Hlim
                 | self r evs res Hb Hc Hlim Hruns IH];
    intros t ip c loc Hin Hip.
  - contradiction.
  - rewrite hop_lines_hop_events in *. destruct Hin as [Hin|[]].
    assert (Ht : ttl self = t).
    { rewrite <- (hop_line_ttl e (ttl self)), Hin. reflexivity. }
    repeat split.
    + exists self. auto.
    + destruct (hop_events_last e self r) as (pre & Hpre & _).
      exists pre. now rewrite <- Hin.
    + constructor; [|constructor]. rewrite hop_line_ttl. lia.
  - rewrite hop_lines_hop_events in Hin. destruct Hin as [Hin|[]].
    rewrite (hop_line_from_destination _ _ _ _ _ _ _ Hin Hip) in Hc.
    discriminate.
  - rewrite hop_lines_app, hop_lines_hop_events in *. simpl in Hin.
    destruct Hin as [Hin|Hin].
    { rewrite (hop_line_from_destination _ _ _ _ _ _ _ Hin Hip) in Hc.
      discriminate. }
    destruct (IH _ _ _ _ Hin Hip) as (Hres & (pre & Hpre) & Hall).
    repeat split; trivial.
    + exists (hop_events e self r ++ pre). now rewrite Hpre, app_assoc.
    + simpl. constructor; trivial.
      rewrite hop_line_ttl.
      destruct (runs_ttls _ _ _ _ _ _ Hruns) as (n & _ & _ & Hl).
      assert (Ht : In t (map line_ttl (hop_lines evs))).
      { apply in_map_iff. now exists (Reply t ip c loc). }
      rewrite Hl in Ht. apply In_range in Ht. simpl in Ht. lia.
Qed.

Lemma runs_lines (e : env) (dst_ip : string) self r evs res :
  runs e dst_ip self r evs res ->
  Forall (fun l => l = hop_line e (line_ttl l)) (hop_lines evs).
Proof.
  induction 1 as [self r err Hb | self r Hb Hc | self r Hb Hc Hlim
                 | self r evs res Hb Hc Hlim Hruns IH].
  - constructor.
  - rewrite hop_lines_hop_events. repeat constructor. now rewrite hop_line_ttl.
  - rewrite hop_lines_hop_events. repeat constructor. now rewrite hop_line_ttl.
  - rewrite hop_lines_app, hop_lines_hop_events. simpl.
    constructor; trivial. now rewrite hop_line_ttl.
Qed.

Lemma run_lines (e : env) (self : Tracer) :
  Forall (fun l => l = hop_line e (line_ttl l))
         (hop_lines (trace (snd (run e self world0)))).
Proof.
  pose proof (run_runs e self) as Hrun.
  destruct (gethostbyname e (dst self)) as [ip|err].
  - destruct Hrun as (evs & res & _ & Htr & Hruns).
    rewrite Htr, hop_lines_app. simpl. eapply runs_lines; eauto.
  - destruct Hrun as (_ & Htr). rewrite Htr. constructor.
Qed.

Lemma run_probes_have_lines (e : env) (self : Tracer) :
  map line_ttl (hop_lines (trace (snd (run e self world0))))
  = probe_ttls (trace (snd (run e self world0))).
Proof.
  pose proof (run_runs e self) as Hrun.
  destruct (gethostbyname e (dst self)) as [ip|err].
  - destruct Hrun as (evs & res & _ & Htr & Hruns).
    rewrite Htr, hop_lines_app, probe_ttls_app. simpl.
    destruct (runs_ttls _ _ _ _ _ _ Hruns) as (n & _ & Hp & Hl). congruence.
  - destruct Hrun as (_ & Htr). now rewrite Htr.
Qed.

(** C2. In every run in which the read of a hop captures the resolved
    destination address, the result line of that hop, with its TTL,
    address, latency and location, is the last thing the run does: the run
    ends normally with the counter still at that TTL, no hop result with a
    larger TTL is emitted, and the body is left through [break] only with
    the line already printed. *)
Theorem destination_ends_loop (e : env) (self : Tracer) (dst_ip : string) :
  gethostbyname e (dst self) = inl dst_ip ->
  let out := run e self world0 in
  let tr := trace (snd out) in
  (forall t data addr,
      In t (probe_ttls tr) ->
      incoming (hop e t) = Some (data, addr) ->
      fst addr = dst_ip ->
      In (hop_line e t) (hop_lines tr) /\
      hop_line e t
      = Reply t dst_ip
          (time_cost_of (start_clock (hop e t)) (end_clock (hop e t)))
          (get_geoip e dst_ip)) /\
  (forall t ip c loc,
      In (Reply t ip c loc) (hop_lines tr) -> ip = dst_ip ->
      (exists self', fst out = Ok (Some self') /\ ttl self' = t /\
                     hop_line e (ttl self') = Reply t ip c loc) /\
      (exists pre, tr = pre ++ [EvPrint (Reply t ip c loc)]) /\
      Forall (fun l => line_ttl l <= t) (hop_lines tr)) /\
  (forall (s : Tracer) (w : world),
      bind_error (hop e (ttl s)) = None ->
      hop_ctrl e dst_ip s = Break ->
      exists older,
        body e dst_ip s w = (Ok Break, after_hop e s w) /\
        log (after_hop e s w) = EvPrint (hop_line e (ttl s)) :: older).
Proof.
  intros Hip out tr. subst out tr. split; [|split].
  - intros t data addr Ht Hin Ha.
    assert (Hl : hop_line e t
                 = Reply t dst_ip
                     (time_cost_of (start_clock (hop e t)) (end_clock (hop e t)))
                     (get_geoip e dst_ip)).
    { unfold hop_line. rewrite Hin, Ha. reflexivity. }
    split; trivial.
    rewrite <- run_probes_have_lines in Ht.
    apply in_map_iff in Ht. destruct Ht as (l & Hlt & Hl').
    pose proof (run_lines e self) as Hall. rewrite Forall_forall in Hall.
    rewrite (Hall l Hl'), Hlt in Hl'. exact Hl'.
  - intros t ip c loc Hin Heq.
    pose proof (run_runs e self) as Hrun. rewrite Hip in Hrun.
    destruct Hrun as (evs & res & Hres & Htr & Hruns).
    rewrite Htr, Hres in *. rewrite hop_lines_app in *. simpl app in *.
    destruct (runs_reached_last _ _ _ _ _ _ Hruns _ _ _ _ Hin Heq)
      as (Hself & (pre & Hpre) & Hall).
    repeat split; trivial.
    exists (prologue self dst_ip ++ pre). rewrite Hpre. reflexivity.
  - intros s w Hb Hc. rewrite body_eq. cbv zeta. rewrite Hb, Hc.
    eexists. split; reflexivity.
Qed.

Lemma destination_ends_loop_witness :
  exists pre,
    trace (snd (run Sample.e (Sample.tracer 3) world0))
    = pre ++ [EvPrint (Reply 2 "93.184.216.34" 500
                         "Testland (Lat: 0.0, Lon: 0.0)")].
Proof.
  destruct (destination_ends_loop Sample.e (Sample.tracer 3) "93.184.216.34")
    as (_ & H & _).
  - reflexivity.
  - destruct (H 2 "93.184.216.34" 500%float "Testland (Lat: 0.0, Lon: 0.0)")
      as (_ & Hlast & _).
    + vm_compute. right. left. reflexivity.
    + reflexivity.
    + exact Hlast.
Defined.

(** ** The peer of the session *)

Lemma runs_session (e : env) (dst_ip : string) self r evs res :
  runs e dst_ip self r evs res ->
  Forall (uses_session (dst self) (port self)) evs /\
  (forall self', res = Ok (Some self') ->
     port self' = port self /\ dst self' = dst self /\ hops self' = hops self).
Proof.
  induction 1 as [self r err Hb | self r Hb Hc | self r Hb Hc Hlim
                 | self r evs res Hb Hc Hlim Hruns IH].
  - split; [|discriminate].
    unfold setup_events. repeat constructor.
  - split.
    + unfold hop_events, setup_events. simpl. repeat constructor.
    + intros self' H. inversion H; subst. auto.
  - split.
    + unfold hop_events, setup_events. simpl. repeat constructor.
    + intros self' H. inversion H; subst. auto.
  - destruct IH as (IH1 & IH2). split; [|exact IH2].
    apply Forall_app. split; [|exact IH1].
    unfold hop_events, setup_events. simpl. repeat constructor.
Qed.

Lemma run_session (e : env) (self : Tracer) :
  Forall (uses_session (dst self) (port self)) (trace (snd (run e self world0))) /\
  (forall self', fst (run e self world0) = Ok (Some self') ->
     port self' = port self /\ dst self' = dst self /\ hops self' = hops self).
Proof.
  pose proof (run_runs e self) as Hrun.
  destruct (gethostbyname e (dst self)) as [ip|err].
  - destruct Hrun as (evs & res & Hres & Htr & Hruns).
    rewrite Htr, Hres.
    destruct (runs_session _ _ _ _ _ _ Hruns) as (H1 & H2).
    split; [|exact H2].
    apply Forall_app. split; [|exact H1]. repeat constructor.
  - destruct Hrun as (Hres & Htr). rewrite Htr, Hres.
    split; [repeat constructor | discriminate].
Qed.

(** A run of the loop sends a probe as soon as its first bind succeeds,
    and no probe at all otherwise. *)
Lemma runs_first_send (e : env) (dst_ip : string) self r evs res :
  runs e dst_ip self r evs res ->
  (probe_ttls evs = [] /\ forall h p, Forall (sends_to h p) evs) \/
  (probe_ttls evs <> [] /\ In (EvSendTo (S r) [] (dst self) (port self)) evs).
Proof.
  intros H.
  inversion H; subst; [left | right | right | right].
  - split; [reflexivity|]. intros h p. unfold setup_events. repeat constructor.
  - split; [discriminate|]. unfold hop_events, setup_events. simpl. auto 10.
  - split; [discriminate|]. unfold hop_events, setup_events. simpl. auto 10.
  - split; [rewrite probe_ttls_app; discriminate|].
    apply in_or_app. left. unfold hop_events, setup_events. simpl. auto 10.
Qed.

(** C1, as the code has it.  Every probe is a datagram with an empty
    payload sent to the pair made of the destination host as it was given
    to the session and of the session's port; it is the socket layer that
    resolves that name, at each send.  The destination is the pair (address
    returned by the one resolution of [run], port) exactly when that
    address is the given host itself, or when no probe is sent at all. *)
Theorem probes_go_to_given_host (e : env) (self : Tracer) :
  let tr := trace (snd (run e self world0)) in
  Forall (fun ev => match ev with
                    | EvSendTo _ payload h q =>
                        payload = [] /\ (h, q) = (dst self, port self)
                    | _ => True
                    end) tr /\
  (forall dst_ip,
      gethostbyname e (dst self) = inl dst_ip ->
      (Forall (sends_to dst_ip (port self)) tr <->
       dst_ip = dst self \/ probe_ttls tr = [])).
Proof.
  intros tr. subst tr.
  destruct (run_session e self) as (Hall & _).
  split.
  - eapply Forall_impl; [|exact Hall].
    intros [] H; simpl in *; trivial.
    destruct H as (Hp & Hh & Hq). subst. auto.
  - intros dst_ip Hip.
    pose proof (run_runs e self) as Hrun. rewrite Hip in Hrun.
    destruct Hrun as (evs & res & Hres & Htr & Hruns).
    rewrite Htr in *. rewrite probe_ttls_app.
    change (probe_ttls (prologue self dst_ip) ++ probe_ttls evs)
      with (probe_ttls evs).
    destruct (runs_first_send _ _ _ _ _ _ Hruns) as [(Hnil & Hnone)|(Hsome & Hin)].
    + split.
      * intros _. now right.
      * intros _. apply Forall_app. split; [repeat constructor | apply Hnone].
    + split.
      * intros Hsend. left. rewrite Forall_forall in Hsend.
        specialize (Hsend _ (in_or_app _ _ _ (or_intror Hin))).
        simpl in Hsend. now inversion Hsend.
      * intros [Heq|Hnone]; [|contradiction].
        subst dst_ip. eapply Forall_impl; [|exact Hall].
        intros [] H; simpl in *; trivial.
        destruct H as (_ & Hh & Hq). now subst.
Qed.

Lemma probes_go_to_given_host_witness :
  ~ Forall (sends_to "93.184.216.34" 33441)
      (trace (snd (run Sample.e (Sample.tracer 3) world0))).
Proof.
  destruct (probes_go_to_given_host Sample.e (Sample.tracer 3)) as (_ & H).
  intros Hall.
  apply (H "93.184.216.34" eq_refl) in Hall.
  destruct Hall as [Heq|Hnil].
  - vm_compute in Heq. discriminate.
  - vm_compute in Hnil. discriminate.
Defined.

(** C1, as it is stated, fails on the sample session: the name resolves to
    93.184.216.34 and the probes are sent to the name [example.test]. *)
Lemma probes_go_to_resolved_address_fails :
  ~ probes_go_to_resolved_address Sample.e (Sample.tracer 3).
Proof.
  intros H. specialize (H "93.184.216.34" eq_refl).
  rewrite Forall_forall in H.
  specialize (H (EvSendTo 1%nat [] "example.test" 33441)).
  assert (Hin : In (EvSendTo 1%nat [] "example.test" 33441)
                   (trace (snd (run Sample.e (Sample.tracer 3) world0)))).
  { vm_compute. auto 10. }
  apply H in Hin. simpl in Hin. discriminate.
Qed.

(** ** The identification port *)

Lemma random_choice_in (e : env) (l : list Z) :
  l <> [] -> In (random_choice e l) l.
Proof.
  intros Hl. unfold random_choice. apply nth_In.
  apply Nat.mod_upper_bound. destruct l; [contradiction | discriminate].
Qed.

(** C9. The port is drawn once, by [__init__], between 33434 and 33534, and
    [run] never changes it: every bind of a receiving socket and every
    probe of the run, whatever the TTL, uses the port the session was
    entered with, and the session still has that port when the run ends. *)
Theorem port_fixed_for_session (e : env) (self : Tracer) :
  (forall d n path,
      match fst (init e d n path world0) with
      | Ok s => port s = random_choice e (range 33434 33535) /\
                33434 <= port s < 33535
      | Raise _ => True
      end) /\
  Forall (fun ev => match ev with
                    | EvBind _ _ q _ => q = port self
                    | EvSendTo _ _ _ q => q = port self
                    | _ => True
                    end) (trace (snd (run e self world0))) /\
  (forall self', fst (run e self world0) = Ok (Some self') ->
                 port self' = port self).
Proof.
  split; [|split].
  - intros d n path.
    assert (Hp : 33434 <= random_choice e (range 33434 33535) < 33535).
    { apply In_range, random_choice_in.
      rewrite range_cons by lia. discriminate. }
    unfold init. revert Hp.
    generalize (random_choice e (range 33434 33535)). intros p Hp.
    unfold bind, print, emit, ret, raise. cbv beta iota zeta.
    destruct (db_found e path); simpl; auto.
  - destruct (run_session e self) as (Hall & _).
    eapply Forall_impl; [|exact Hall].
    intros [] H; simpl in *; trivial; tauto.
  - intros self' H. now apply (run_session e self).
Qed.

Lemma port_fixed_for_session_witness :
  port (set_ttl (Sample.tracer 3) 2) = 33441.
Proof.
  destruct (port_fixed_for_session Sample.e (Sample.tracer 3)) as (_ & _ & H).
  apply (H (set_ttl (Sample.tracer 3) 2)). vm_compute. reflexivity.
Defined.

(** ** A bind that fails *)

Lemma stops_at_failed_bind_split res tr :
  stops_at_failed_bind res tr ->
  forall pre s h q err post,
    tr = pre ++ EvBind s h q (Some err) :: post ->
    post = [] /\ res = Raise (bind_failure err).
Proof.
  intros H pre. revert tr H.
  induction pre as [|ev pre IH]; intros tr H s h q err post Heq; subst tr.
  - exact H.
  - simpl in H. destruct ev; try (eapply IH; [exact H | reflexivity]).
    destruct err0 as [err0|]; [|eapply IH; [exact H | reflexivity]].
    destruct H as (Hnil & _). destruct pre; discriminate.
Qed.

Lemma runs_stops_at_failed_bind (e : env) (dst_ip : string) self r evs res :
  runs e dst_ip self r evs res -> stops_at_failed_bind res evs.
Proof.
  induction 1 as [self r err Hb | self r Hb Hc | self r Hb Hc Hlim
                 | self r evs res Hb Hc Hlim Hruns IH];
    unfold hop_events, setup_events; rewrite Hb; simpl; auto.
Qed.

(** C6. An iteration whose bind fails makes the loop, and with it the whole
    run, end with an [IOError] right after that bind: the failed bind is
    the last event of the run, so it is not tried again and no probe, read
    or hop result follows it. *)
Theorem bind_failure_aborts_run (e : env) (self : Tracer) :
  (forall fuel dst_ip (s : Tracer) (w : world) err,
      bind_error (hop e (ttl s)) = Some err ->
      loop (S fuel) e dst_ip s w
      = (Raise (bind_failure err), after_abort s (hop e (ttl s)) w) /\
      trace (after_abort s (hop e (ttl s)) w)
      = trace w ++ [EvSocket (next_fd w) RawIcmp; EvRcvTimeo (next_fd w) 5 0;
                    EvBind (next_fd w) "" (port s) (Some err)]) /\
  (forall pre s h q err post,
      trace (snd (run e self world0)) = pre ++ EvBind s h q (Some err) :: post ->
      post = [] /\ fst (run e self world0) = Raise (bind_failure err)).
Proof.
  split.
  - intros fuel dst_ip s w err Hb. rewrite loop_S, Hb. split; trivial.
    unfold after_abort. cbv zeta. rewrite trace_log.
    unfold setup_events. now rewrite Hb.
  - intros pre s h q err post Htr.
    pose proof (run_runs e self) as Hrun.
    destruct (gethostbyname e (dst self)) as [ip|msg].
    + destruct Hrun as (evs & res & Hres & Htr' & Hruns).
      rewrite Hres. rewrite Htr' in Htr.
      apply (stops_at_failed_bind_split res (prologue self ip ++ evs))
        with (pre := pre) (s := s) (h := h) (q := q); trivial.
      simpl. now apply runs_stops_at_failed_bind in Hruns.
    + destruct Hrun as (_ & Htr'). rewrite Htr' in Htr.
      destruct pre as [|? [|? ?]]; discriminate.
Qed.

(** ** A hop that does not answer *)

(** C4. When the read of an iteration times out or raises a receive error,
    no address is captured and nothing is raised: the body ends normally
    by falling through, the line it prints holds the TTL and the marker [*]
    only, and the loop goes on with the TTL incremented: to the next
    iteration when that TTL is within the limit, to its normal end
    otherwise. *)
Theorem silent_hop_continues (e : env) (dst_ip : string) (self : Tracer)
    (w : world) (fuel : nat) :
  bind_error (hop e (ttl self)) = None ->
  incoming (hop e (ttl self)) = None ->
  (forall receiver sender w0,
      fst (read_reply receiver sender (hop e (ttl self)) w0) = Ok None) /\
  body e dst_ip self w = (Ok Fallthrough, after_hop e self w) /\
  (exists pre,
      trace (after_hop e self w) = trace w ++ pre ++ [EvPrint (NoReply (ttl self))] /\
      hop_lines pre = []) /\
  render e (NoReply (ttl self)) = (ljust4 (str_int (ttl self)) ++ " *")%string /\
  loop (S fuel) e dst_ip self w
  = if (ttl self + 1 >? hops self)%Z
    then (Ok (Some (next_tracer self)), after_hop e self w)
    else loop fuel e dst_ip (next_tracer self) (after_hop e self w).
Proof.
  intros Hb Hin.
  assert (Hc : hop_ctrl e dst_ip self = Fallthrough).
  { unfold hop_ctrl. now rewrite Hin. }
  assert (Hl : hop_line e (ttl self) = NoReply (ttl self)).
  { unfold hop_line. now rewrite Hin. }
  repeat split.
  - intros receiver sender w0. unfold read_reply, bind, emit, close, ret.
    simpl. now rewrite Hin.
  - rewrite body_eq. cbv zeta. now rewrite Hb, Hc.
  - destruct (hop_events_last e self (next_fd w)) as (pre & Hpre & Hnone).
    exists pre. split; trivial.
    unfold after_hop. cbv zeta. rewrite trace_log, Hpre, Hl. reflexivity.
  - rewrite loop_S, Hb, Hc. reflexivity.
Qed.

Lemma silent_hop_continues_witness :
  body Sample.e "93.184.216.34" (Sample.tracer 3) world0
  = (Ok Fallthrough, after_hop Sample.e (Sample.tracer 3) world0).
Proof.
  destruct (silent_hop_continues Sample.e "93.184.216.34" (Sample.tracer 3)
              world0 0%nat) as (_ & H & _).
  - reflexivity.
  - reflexivity.
  - exact H.
Defined.

(** ** Sockets *)

Lemma remove_pair (r : fd) :
  remove_fd (S r) (remove_fd r [S r; r]) = [].
Proof.
  unfold remove_fd. simpl.
  rewrite Nat.eqb_refl.
  replace (r =? S r)%nat with false by (symmetry; apply Nat.eqb_neq; lia).
  replace (match r with O => false | S m' => (r =? m')%nat end) with false.
  - simpl. now rewrite Nat.eqb_refl.
  - symmetry. change ((S r =? r)%nat = false). apply Nat.eqb_neq. lia.
Qed.

Lemma open_after_app (o : list fd) (a b : list event) :
  open_after o (a ++ b) = open_after (open_after o a) b.
Proof.
  revert o. induction a as [|ev a IH]; intros o; simpl; trivial.
  destruct ev; apply IH.
Qed.

Lemma open_after_hop_events (e : env) (self : Tracer) (r : fd) :
  open_after [] (hop_events e self r) = [].
Proof.
  unfold hop_events, setup_events. simpl. apply remove_pair.
Qed.

Lemma released_at_prints_app (o : list fd) (a b : list event) :
  released_at_prints o a ->
  released_at_prints (open_after o a) b ->
  released_at_prints o (a ++ b).
Proof.
  revert o. induction a as [|ev a IH]; intros o Ha Hb; simpl in *; trivial.
  destruct ev; try (apply IH; assumption).
  destruct Ha as (Ho & Ha). split; trivial. now apply IH.
Qed.

Lemma released_hop_events (e : env) (self : Tracer) (r : fd) :
  released_at_prints [] (hop_events e self r).
Proof.
  unfold hop_events, setup_events. simpl. split; trivial. apply remove_pair.
Qed.

Lemma released_split (pre : list event) :
  forall o tr l post,
    released_at_prints o tr ->
    tr = pre ++ EvPrint l :: post ->
    open_after o pre = [].
Proof.
  induction pre as [|ev pre IH]; intros o tr l post H Heq; subst tr.
  - simpl in *. tauto.
  - simpl in H. destruct ev; simpl;
      try (eapply IH; [exact H | reflexivity]).
    destruct H as (_ & H). eapply IH; [exact H | reflexivity].
Qed.

Lemma runs_released (e : env) (dst_ip : string) self r evs res :
  runs e dst_ip self r evs res ->
  released_at_prints [] evs /\
  (forall x, res = Ok x -> open_after [] evs = []).
Proof.
  induction 1 as [self r err Hb | self r Hb Hc | self r Hb Hc Hlim
                 | self r evs res Hb Hc Hlim Hruns IH].
  - split; [exact I | discriminate].
  - split; [apply released_hop_events|]. intros _ _. apply open_after_hop_events.
  - split; [apply released_hop_events|]. intros _ _. apply open_after_hop_events.
  - destruct IH as (IH1 & IH2). split.
    + apply released_at_prints_app; [apply released_hop_events|].
      now rewrite open_after_hop_events.
    + intros x Hx. rewrite open_after_app, open_after_hop_events. eauto.
Qed.

Lemma fresh_old (tr : list event) :
  forall old cur,
    fresh_per_hop old cur tr ->
    forall s, In s old -> ~ In s (fds_of tr).
Proof.
  induction tr as [|ev tr IH]; intros old cur H s Hs; simpl; [tauto|].
  unfold fds_of in *. simpl. rewrite in_app_iff. intros [Hev|Htr].
  - destruct ev; simpl in H, Hev; try contradiction;
      destruct H as (H & _); apply (H s); trivial.
  - destruct ev; simpl in H;
      try (destruct H as (_ & H); apply (IH _ _ H s); trivial).
    apply (IH _ _ H s); trivial. apply in_or_app. now right.
Qed.

Lemma fresh_split (pre : list event) :
  forall old cur tr l post,
    fresh_per_hop old cur tr ->
    tr = pre ++ EvPrint l :: post ->
    forall s, In s (fds_of pre) \/ In s cur \/ In s old -> ~ In s (fds_of post).
Proof.
  induction pre as [|ev pre IH]; intros old cur tr l post H Heq s Hs; subst tr.
  - simpl in H. apply (fresh_old _ _ _ H).
    apply in_or_app. simpl in Hs. tauto.
  - assert (Hs' : In s (ev_fds ev) \/ In s (fds_of pre) \/ In s cur \/ In s old).
    { unfold fds_of in *. simpl in Hs. rewrite in_app_iff in Hs. tauto. }
    clear Hs. simpl in H.
    destruct ev; simpl in Hs';
      try (destruct H as (_ & H);
           apply (IH _ _ _ _ _ H eq_refl s); simpl; tauto).
    apply (IH _ _ _ _ _ H eq_refl s). rewrite in_app_iff. simpl. tauto.
Qed.

(** ** Signs of the floats the program computes *)

Local Open Scope Z_scope.

Lemma shr_1_nonneg mrs : 0 <= shr_m mrs -> 0 <= shr_m (shr_1 mrs).
Proof.
  destruct mrs as [m r s]. simpl.
  destruct m as [|p|p]; [| destruct p | ]; simpl; lia.
Qed.

Lemma iter_shr_1_nonneg (p : positive) :
  forall mrs, 0 <= shr_m mrs -> 0 <= shr_m (iter_pos shr_1 p mrs).
Proof.
  induction p as [p IH|p IH|]; intros mrs H; simpl.
  - apply IH, IH, shr_1_nonneg, H.
  - apply IH, IH, H.
  - apply shr_1_nonneg, H.
Qed.

Lemma shr_fexp_nonneg m e l :
  0 <= m -> 0 <= shr_m (fst (shr_fexp prec emax m e l)).
Proof.
  intros H. unfold shr_fexp, shr.
  assert (H0 : 0 <= shr_m (shr_record_of_loc m l)).
  { destruct l as [|[]]; exact H. }
  destruct (fexp prec emax (Zdigits2 m + e) - e); simpl; trivial.
  now apply iter_shr_1_nonneg.
Qed.

Lemma round_nearest_even_nonneg m l : 0 <= m -> 0 <= round_nearest_even m l.
Proof.
  intros H. destruct l as [|[]]; simpl; try lia.
  destruct (Z.even m); lia.
Qed.

Lemma binary_round_aux_sign sx m e l :
  0 <= m -> signed_sf sx (binary_round_aux prec emax sx m e l).
Proof.
  intros H. unfold binary_round_aux.
  pose proof (shr_fexp_nonneg m e l H) as H1.
  destruct (shr_fexp prec emax m e l) as [mrs' e'].
  simpl in H1.
  pose proof (shr_fexp_nonneg
                (round_nearest_even (shr_m mrs') (loc_of_shr_record mrs')) e'
                loc_Exact (round_nearest_even_nonneg _ _ H1)) as H2.
  destruct (shr_fexp prec emax _ e' loc_Exact) as [mrs'' e''].
  simpl in H2.
  destruct (shr_m mrs'') as [|p|p]; simpl; trivial; [|lia].
  match goal with |- context [if ?b then _ else _] => destruct b end;
    reflexivity.
Qed.

Lemma binary_normalize_sign m e :
  0 <= m -> nonneg_sf (binary_normalize prec emax m e false).
Proof.
  intros H. destruct m as [|p|p]; simpl; trivial; [|lia].
  unfold binary_round.
  destruct (shl_align p e _) as [mz ez].
  pose proof (binary_round_aux_sign false (Zpos mz) ez loc_Exact) as Hs.
  destruct (binary_round_aux prec emax false (Zpos mz) ez loc_Exact);
    simpl in *; auto; apply Hs; lia.
Qed.

Lemma nonneg_spec (x : float) : nonneg x <-> nonneg_sf (Prim2SF x).
Proof.
  unfold nonneg. rewrite leb_spec.
  change (Prim2SF 0) with (S754_zero false).
  destruct (Prim2SF x) as [s|s| |s m e]; simpl.
  - tauto.
  - destruct s; simpl; split; intros H; try reflexivity; try discriminate.
  - split; [discriminate | tauto].
  - destruct s; simpl; split; intros H; try reflexivity; try discriminate.
Qed.

Lemma binary_round_nonneg m e : nonneg_sf (binary_round prec emax false m e).
Proof.
  apply (binary_normalize_sign (Zpos m) e). lia.
Qed.

Lemma SFldexp_nonneg x e : nonneg_sf x -> nonneg_sf (SFldexp prec emax x e).
Proof.
  destruct x as [s|s| |s m ex]; simpl; trivial.
  intros ->. apply binary_round_nonneg.
Qed.

Lemma SF2Prim_nonneg (y : spec_float) :
  signed_sf false y -> nonneg_sf (Prim2SF (SF2Prim y)).
Proof.
  destruct y as [s|s| |s m e]; simpl; intros H; subst; try contradiction.
  - exact I.
  - reflexivity.
  - rewrite Z_ldexp_spec. apply SFldexp_nonneg.
    rewrite of_uint63_spec. apply binary_normalize_sign.
    apply Uint63.to_Z_bounded.
Qed.

Lemma mul_1000_nonneg (x : float) : nonneg (x) -> nonneg (x * 1000)%float.
Proof.
  rewrite !nonneg_spec, mul_spec.
  set (k := Prim2SF 1000). vm_compute in k. subst k.
  destruct (Prim2SF x) as [s|s| |s m e]; simpl; trivial.
  - intros ->. reflexivity.
  - intros ->. simpl.
    pose proof (binary_round_aux_sign false
                  (Zpos (m * 8796093022208000)) (e + -43) loc_Exact) as Hs.
    destruct (binary_round_aux prec emax false _ _ loc_Exact);
      simpl in *; auto; apply Hs; lia.
Qed.

Lemma digits2_pos_bounds (m : positive) :
  2 ^ (Zpos (digits2_pos m) - 1) <= Zpos m < 2 ^ Zpos (digits2_pos m).
Proof.
  induction m as [p IH|p IH|]; simpl digits2_pos.
  - rewrite Pos2Z.inj_succ.
    replace (Z.succ (Zpos (digits2_pos p)) - 1) with (Z.succ (Zpos (digits2_pos p) - 1)) by lia.
    rewrite !Z.pow_succ_r by lia. lia.
  - rewrite Pos2Z.inj_succ.
    replace (Z.succ (Zpos (digits2_pos p)) - 1) with (Z.succ (Zpos (digits2_pos p) - 1)) by lia.
    rewrite !Z.pow_succ_r by lia. lia.
  - simpl. lia.
Qed.

Lemma iter_xO_value (m d : positive) :
  Zpos (Pos.iter xO m d) = Zpos m * 2 ^ Zpos d.
Proof.
  induction d as [|d IH] using Pos.peano_ind.
  - simpl. lia.
  - rewrite Pos.iter_succ, Pos2Z.inj_succ, Z.pow_succ_r by lia.
    rewrite Pos2Z.inj_xO, IH. lia.
Qed.

Lemma shl_align_value (m : positive) (e ez : Z) :
  ez <= e -> Zpos (fst (shl_align m e ez)) = Zpos m * 2 ^ (e - ez).
Proof.
  intros H. unfold shl_align.
  destruct (ez - e) as [|d|d] eqn:Hd; simpl fst.
  - replace (e - ez) with 0 by lia. lia.
  - lia.
  - rewrite iter_xO_value. f_equal. f_equal. lia.
Qed.

(** Among valid floats the one with the smaller exponent is the smaller. *)
Lemma smaller_exponent (mx : positive) (ex : Z) (my : positive) (ey : Z) :
  bounded prec emax mx ex = true ->
  bounded prec emax my ey = true ->
  ex < ey ->
  Zpos mx < Zpos my * 2 ^ (ey - ex).
Proof.
  unfold bounded, canonical_mantissa, fexp, SpecFloat.emin.
  intros Hx Hy Hlt.
  apply andb_prop in Hx, Hy. destruct Hx as (Hx & _), Hy as (Hy & _).
  apply Z.eqb_eq in Hx, Hy.
  change prec with 53 in *. change emax with 1024 in *.
  pose proof (digits2_pos_bounds mx) as (_ & Bx).
  pose proof (digits2_pos_bounds my) as (By & _).
  assert (Dx : Zpos (digits2_pos mx) <= 53) by lia.
  assert (Dy : Zpos (digits2_pos my) = 53) by lia.
  rewrite Dy in By.
  assert (P1 : 2 ^ Zpos (digits2_pos mx) <= 2 ^ 53) by (apply Z.pow_le_mono_r; lia).
  assert (P2 : 2 ^ 1 <= 2 ^ (ey - ex)) by (apply Z.pow_le_mono_r; lia).
  change (2 ^ 1) with 2 in P2. change (2 ^ (53 - 1)) with 4503599627370496 in By.
  change (2 ^ 53) with 9007199254740992 in P1.
  nia.
Qed.

Lemma finite_sub_sign sx mx ex sy my ey :
  bounded prec emax mx ex = true ->
  bounded prec emax my ey = true ->
  SFleb (S754_finite sy my ey) (S754_finite sx mx ex) = true ->
  0 <= cond_Zopp sx (Zpos (fst (shl_align mx ex (Z.min ex ey))))
       - cond_Zopp sy (Zpos (fst (shl_align my ey (Z.min ex ey)))).
Proof.
  intros Hx Hy Hle.
  rewrite !shl_align_value by lia.
  assert (Px : 0 < 2 ^ (ex - Z.min ex ey)) by (apply Z.pow_pos_nonneg; lia).
  assert (Py : 0 < 2 ^ (ey - Z.min ex ey)) by (apply Z.pow_pos_nonneg; lia).
  unfold SFleb, SFcompare in Hle.
  change (Pos.compare_cont Eq my mx) with (Pos.compare my mx) in Hle.
  rewrite Pos2Z.inj_compare in Hle.
  destruct sy, sx; cbn [cond_Zopp]; try discriminate.
  - destruct (Z.compare_spec ey ex) as [He|He|He]; try discriminate.
    + subst ey. rewrite Z.min_id, Z.sub_diag in *. change (2 ^ 0) with 1 in *.
      destruct (Z.compare_spec (Zpos my) (Zpos mx)); simpl in Hle;
        try discriminate; lia.
    + pose proof (smaller_exponent mx ex my ey Hx Hy He).
      rewrite Z.min_l by lia. rewrite Z.sub_diag. change (2 ^ 0) with 1. lia.
  - nia.
  - destruct (Z.compare_spec ey ex) as [He|He|He]; try discriminate.
    + subst ey. rewrite Z.min_id, Z.sub_diag in *. change (2 ^ 0) with 1 in *.
      destruct (Z.compare_spec (Zpos my) (Zpos mx)); simpl in Hle;
        try discriminate; lia.
    + pose proof (smaller_exponent my ey mx ex Hy Hx He).
      rewrite Z.min_r by lia. rewrite Z.sub_diag. change (2 ^ 0) with 1. lia.
Qed.

Lemma is_finite_spec (x : float) :
  is_finite x = true -> finite_sf (Prim2SF x).
Proof.
  unfold is_finite, is_nan, is_infinity.
  rewrite !FloatAxioms.eqb_spec, abs_spec.
  change (Prim2SF infinity) with (S754_infinity false).
  destruct (Prim2SF x) as [s|s| |s m e]; simpl; trivial.
  - destruct s; discriminate.
  - discriminate.
Qed.

(** The difference of two finite floats is not negative when the one
    subtracted is not the larger. *)
Lemma sub_nonneg (x y : float) :
  is_finite x = true -> is_finite y = true ->
  (y <=? x)%float = true ->
  nonneg (x - y)%float.
Proof.
  intros Fx Fy Hle.
  apply is_finite_spec in Fx, Fy.
  rewrite FloatAxioms.leb_spec in Hle.
  rewrite nonneg_spec, sub_spec.
  pose proof (Prim2SF_valid x) as Vx. pose proof (Prim2SF_valid y) as Vy.
  destruct (Prim2SF x) as [sx|sx| |sx mx ex]; try contradiction;
    destruct (Prim2SF y) as [sy|sy| |sy my ey]; try contradiction.
  - simpl. destruct sx, sy; exact I.
  - destruct sy; [reflexivity | discriminate].
  - destruct sx; [discriminate | reflexivity].
  - unfold SF64sub, SFsub.
    apply binary_normalize_sign.
    now apply finite_sub_sign.
Qed.

Lemma py_round2_nonneg (x : float) : nonneg x -> nonneg (py_round2 x).
Proof.
  intros H. unfold py_round2.
  pose proof H as H'. rewrite nonneg_spec in H'.
  destruct (Prim2SF x) as [s|s| |s m e]; trivial.
  simpl in H'. subst s.
  destruct (0 <=? e)%Z; trivial.
  rewrite nonneg_spec.
  destruct (round_half_even (Zpos m * 100) (2 ^ (- e))) as [|n|n];
    try exact I.
  apply SF2Prim_nonneg.
  unfold SFdiv.
  destruct (SFdiv_core_binary prec emax (Zpos n) 0 100 0) as [[mz ez] lz] eqn:Hd.
  apply binary_round_aux_sign.
  unfold SFdiv_core_binary in Hd.
  match type of Hd with
  | (let '(q, r) := Z.div_eucl ?a ?b in _) = _ =>
      pose proof (Z_div_mod a b eq_refl) as Hdm;
      assert (Ha : 0 <= a);
      [| destruct (Z.div_eucl a b) as [q r]; inversion Hd; subst; nia ]
  end.
  match goal with
  | |- 0 <= match ?s with _ => _ end => destruct s
  end; try lia.
  apply Z.shiftl_nonneg. lia.
Qed.

(** The measured time is not negative when the clock did not go back. *)
Lemma time_cost_nonneg (start_time end_time : float) :
  is_finite start_time = true -> is_finite end_time = true ->
  (start_time <=? end_time)%float = true ->
  nonneg (time_cost_of start_time end_time).
Proof.
  intros Fs Fe Hle. unfold time_cost_of.
  apply py_round2_nonneg, mul_1000_nonneg, sub_nonneg; assumption.
Qed.

(** ** The round-trip time of a hop *)

(** C8, as the code has it.  The line of a hop has a round-trip time
    exactly when the read of that hop captured an address; the time is
    [round((end - start) * 1000, 2)] on the two readings of the wall clock;
    it is not negative provided the two readings are finite and the second
    is not earlier than the first, which [time.time()] does not promise. *)
Theorem rtt_present_iff_captured (e : env) (self : Tracer) :
  Forall (fun l =>
            let io := hop e (line_ttl l) in
            (line_rtt l <> None <-> incoming io <> None) /\
            (forall c,
                line_rtt l = Some c ->
                c = py_round2 ((end_clock io - start_clock io) * 1000)%float /\
                (is_finite (start_clock io) = true ->
                 is_finite (end_clock io) = true ->
                 (start_clock io <=? end_clock io)%float = true ->
                 nonneg c)))
         (hop_lines (trace (snd (run e self world0)))).
Proof.
  eapply Forall_impl; [|apply run_lines].
  intros l Hl. cbv zeta.
  cbv beta in Hl. revert Hl. generalize (line_ttl l). intros t Hl. subst l.
  unfold hop_line.
  destruct (incoming (hop e t)) as [[data addr]|]; simpl.
  - split; [split; discriminate|].
    intros c Hc. inversion Hc; subst c. split; [reflexivity|].
    apply time_cost_nonneg.
  - split; [tauto | discriminate].
Qed.

Lemma rtt_present_iff_captured_witness :
  nonneg 500%float.
Proof.
  pose proof (rtt_present_iff_captured Sample.e (Sample.tracer 3)) as H.
  rewrite Forall_forall in H.
  destruct (H (Reply 2 "93.184.216.34" 500%float "Testland (Lat: 0.0, Lon: 0.0)"))
    as (_ & Hc).
  - vm_compute. auto.
  - destruct (Hc 500%float eq_refl) as (_ & Hn).
    apply Hn; vm_compute; reflexivity.
Defined.

(** C8, as it is stated, fails when the clock is set back between the two
    readings: the hop's line then carries -1000.0 ms. *)
Lemma rtt_present_and_nonneg_fails :
  ~ rtt_present_and_nonneg Faulty.clock_set_back (Sample.tracer 1).
Proof.
  unfold rtt_present_and_nonneg. intros H.
  rewrite Forall_forall in H.
  destruct (H (Reply 1 "10.0.0.1" (-1000)%float "Testland (Lat: 0.0, Lon: 0.0)"))
    as (_ & Hc).
  - vm_compute. auto.
  - destruct (Hc (-1000)%float eq_refl) as (_ & Hn).
    vm_compute in Hn. discriminate.
Qed.

(** ** The GeoIP lookup *)

Lemma hop_events_city (e : env) (c : string -> city_outcome) self r :
  map erase_location (hop_events (with_city e c) self r)
  = map erase_location (hop_events e self r).
Proof.
  unfold hop_events, setup_events, hop_line. simpl.
  destruct (incoming (hop e (ttl self))) as [[d a]|]; reflexivity.
Qed.

Lemma loop_city_irrelevant (e : env) (c : string -> city_outcome)
    (dst_ip : string) (fuel : nat) :
  forall self w w',
    next_fd w' = next_fd w ->
    map erase_location (log w') = map erase_location (log w) ->
    fst (loop fuel (with_city e c) dst_ip self w') = fst (loop fuel e dst_ip self w) /\
    next_fd (snd (loop fuel (with_city e c) dst_ip self w'))
    = next_fd (snd (loop fuel e dst_ip self w)) /\
    map erase_location (log (snd (loop fuel (with_city e c) dst_ip self w')))
    = map erase_location (log (snd (loop fuel e dst_ip self w))).
Proof.
  induction fuel as [|fuel IH]; intros self w w' Hfd Hlog; [simpl; auto|].
  rewrite !loop_S.
  change (hop (with_city e c)) with (hop e).
  change (hop_ctrl (with_city e c) dst_ip self) with (hop_ctrl e dst_ip self).
  assert (Hafter :
            next_fd (after_hop (with_city e c) self w') = next_fd (after_hop e self w) /\
            map erase_location (log (after_hop (with_city e c) self w'))
            = map erase_location (log (after_hop e self w))).
  { unfold after_hop. cbv zeta. cbn [next_fd log]. rewrite Hfd. split; trivial.
    now rewrite !map_app, !map_rev, hop_events_city, Hlog. }
  destruct (bind_error (hop e (ttl self))) as [err|].
  - unfold after_abort. cbv zeta. cbn [fst snd next_fd log].
    rewrite Hfd, !map_app, Hlog. auto.
  - destruct (hop_ctrl e dst_ip self); [cbn [fst snd]; tauto|].
    destruct (ttl self + 1 >? hops self)%Z; [cbn [fst snd]; tauto|].
    apply IH; apply Hafter.
Qed.

(** C7. The lookup is a total function to strings: an address the database
    does not have gives the unknown-location text, any other failure gives
    the error text followed by the failure's description, and either is
    what the hop's line carries as its location.  What the database answers
    changes nothing else: with any other database the run ends the same way
    (same result or error, same final TTL) and produces the same events up
    to the location texts. *)
Theorem geoip_failure_never_aborts (e : env) (self : Tracer) :
  (forall ip, city e ip = AddressNotFoundError ->
              get_geoip e ip = "Localização desconhecida"%string) /\
  (forall ip text, city e ip = OtherException text ->
                   get_geoip e ip = ("Erro ao obter localização: " ++ text)%string) /\
  (forall t ip c loc,
      In (Reply t ip c loc) (hop_lines (trace (snd (run e self world0)))) ->
      loc = get_geoip e ip) /\
  (forall c',
      fst (run (with_city e c') self world0) = fst (run e self world0) /\
      map erase_location (trace (snd (run (with_city e c') self world0)))
      = map erase_location (trace (snd (run e self world0)))).
Proof.
  repeat split.
  - intros ip H. unfold get_geoip. now rewrite H.
  - intros ip text H. unfold get_geoip. now rewrite H.
  - intros t ip c loc Hin.
    pose proof (run_lines e self) as Hall. rewrite Forall_forall in Hall.
    apply Hall in Hin. simpl in Hin. unfold hop_line in Hin.
    destruct (incoming (hop e t)) as [[d a]|]; [|discriminate].
    now inversion Hin.
  - unfold run, bind, emit, print, raise.
    change (gethostbyname (with_city e c')) with (gethostbyname e).
    destruct (gethostbyname e (dst self)) as [ip|err]; [|reflexivity].
    apply loop_city_irrelevant; reflexivity.
  - unfold trace. rewrite !map_rev. f_equal.
    unfold run, bind, emit, print, raise.
    change (gethostbyname (with_city e c')) with (gethostbyname e).
    destruct (gethostbyname e (dst self)) as [ip|err]; [|reflexivity].
    apply loop_city_irrelevant; reflexivity.
Qed.

Lemma geoip_failure_never_aborts_witness :
  get_geoip (with_city Sample.e (fun _ => OtherException "corrupt database"))
            "93.184.216.34"
  = "Erro ao obter localização: corrupt database"%string.
Proof.
  destruct (geoip_failure_never_aborts
              (with_city Sample.e (fun _ => OtherException "corrupt database"))
              (Sample.tracer 3)) as (_ & H & _).
  apply (H "93.184.216.34" "corrupt database"). reflexivity.
Defined.

Lemma bind_failure_aborts_run_witness :
  fst (run Faulty.no_privilege (Sample.tracer 3) world0)
  = Raise (bind_failure "[Errno 1] Operation not permitted").
Proof.
  destruct (bind_failure_aborts_run Faulty.no_privilege (Sample.tracer 3))
    as (_ & H).
  apply (H (firstn 14 (trace (snd (run Faulty.no_privilege (Sample.tracer 3) world0))))
           2%nat ""%string 33441 "[Errno 1] Operation not permitted"%string []).
  vm_compute. reflexivity.
Defined.

(** * Further properties of the code *)

(** [run] from any world. *)
Lemma run_eq (e : env) (self : Tracer) (w : world) :
  run e self w =
  match gethostbyname e (dst self) with
  | inr err =>
      (Raise (resolve_failure self err),
       mkWorld (next_fd w) (open_fds w) (EvResolve (dst self) :: log w))
  | inl dst_ip =>
      loop (run_fuel self) e dst_ip self
        (mkWorld (next_fd w) (open_fds w)
           (EvPrint (Banner (dst self) dst_ip (hops self))
            :: EvResolve (dst self) :: log w))
  end.
Proof.
  unfold run, bind, emit, print, raise.
  destruct (gethostbyname e (dst self)); reflexivity.
Qed.

Lemma run_runs_at (e : env) (self : Tracer) (w : world) :
  match gethostbyname e (dst self) with
  | inr err =>
      fst (run e self w) = Raise (resolve_failure self err) /\
      trace (snd (run e self w)) = trace w ++ [EvResolve (dst self)] /\
      next_fd (snd (run e self w)) = next_fd w /\
      open_fds (snd (run e self w)) = open_fds w
  | inl dst_ip =>
      exists evs res,
        fst (run e self w) = res /\
        trace (snd (run e self w)) = trace w ++ prologue self dst_ip ++ evs /\
        runs e dst_ip self (next_fd w) evs res
  end.
Proof.
  rewrite run_eq.
  destruct (gethostbyname e (dst self)) as [dst_ip|err].
  - destruct (loop_runs e dst_ip (run_fuel self) self
                (mkWorld (next_fd w) (open_fds w)
                   (EvPrint (Banner (dst self) dst_ip (hops self))
                    :: EvResolve (dst self) :: log w)))
      as (evs & res & Hr & Ht & Hruns).
    { unfold run_fuel. lia. }
    exists evs, res. repeat split; trivial.
    rewrite Ht. unfold trace, prologue. simpl. now rewrite <- !app_assoc.
  - repeat split.
Qed.

(** ** How a run can end *)

Lemma runs_outcome (e : env) (dst_ip : string) self r evs res :
  runs e dst_ip self r evs res ->
  match res with
  | Ok (Some self') => Forall bind_ok evs
  | Ok None => False
  | Raise x =>
      exists err pre s,
        x = bind_failure err /\
        evs = pre ++ [EvBind s "" (port self) (Some err)] /\
        Forall bind_ok pre
  end.
Proof.
  induction 1 as [self r err Hb | self r Hb Hc | self r Hb Hc Hlim
                 | self r evs res Hb Hc Hlim Hruns IH].
  - exists err, [EvSocket r RawIcmp; EvRcvTimeo r 5 0], r.
    unfold setup_events. rewrite Hb. repeat split; repeat constructor.
  - unfold hop_events, setup_events. rewrite Hb. simpl. repeat constructor.
  - unfold hop_events, setup_events. rewrite Hb. simpl. repeat constructor.
  - assert (Hblock : Forall bind_ok (hop_events e self r)).
    { unfold hop_events, setup_events. rewrite Hb. simpl. repeat constructor. }
    destruct res as [[self'|]|x]; trivial.
    + apply Forall_app. now split.
    + destruct IH as (err & pre & s & Hx & Hevs & Hpre).
      exists err, (hop_events e self r ++ pre), s.
      repeat split; trivial.
      * rewrite Hevs. now rewrite app_assoc.
      * apply Forall_app. now split.
Qed.

(** X2. A run always comes to an end, after at most
    [max 1 (hops - ttl + 1)] iterations: that is a bound on the probes it
    sends and on the hop results it prints, one per probe. *)
Theorem run_is_bounded (e : env) (self : Tracer) :
  let out := run e self world0 in
  let tr := trace (snd out) in
  fst out <> Ok None /\
  (Z.of_nat (List.length (probe_ttls tr)) <= Z.max 1 (hops self - ttl self + 1)) /\
  List.length (hop_lines tr) = List.length (probe_ttls tr).
Proof.
  intros out tr. subst out tr.
  split; [apply run_terminates|].
  rewrite <- run_probes_have_lines, length_map. split; trivial.
  pose proof (run_runs e self) as Hrun.
  destruct (gethostbyname e (dst self)) as [ip|err].
  - destruct Hrun as (evs & res & _ & Htr & Hruns).
    rewrite Htr, hop_lines_app. simpl.
    destruct (runs_ttls _ _ _ _ _ _ Hruns) as (n & Hn & _ & Hl).
    rewrite <- (length_map line_ttl), Hl, range_length. lia.
  - destruct Hrun as (_ & Htr). rewrite Htr. simpl. lia.
Qed.

(** ** What the counter tells at the end *)

Lemma from_destination_hop_line (e : env) (dst_ip : string) (self : Tracer) :
  from_destination dst_ip (hop_line e (ttl self))
  = match hop_ctrl e dst_ip self with Break => true | Fallthrough => false end.
Proof.
  unfold hop_line, hop_ctrl.
  destruct (incoming (hop e (ttl self))) as [[d a]|]; simpl; trivial.
  now destruct (String.eqb (fst a) dst_ip).
Qed.

Lemma runs_counter (e : env) (dst_ip : string) self r evs res :
  runs e dst_ip self r evs res ->
  forall self',
    res = Ok (Some self') ->
    ttl self' = ttl self + Z.of_nat (List.length (hop_lines evs))
                - (if reached dst_ip evs then 1 else 0) /\
    (ttl self <= hops self ->
     (reached dst_ip evs = true <-> ttl self' <= hops self)).
Proof.
  unfold reached.
  induction 1 as [self r err Hb | self r Hb Hc | self r Hb Hc Hlim
                 | self r evs res Hb Hc Hlim Hruns IH];
    intros self' Hres.
  - discriminate.
  - inversion Hres; subst self'. rewrite hop_lines_hop_events. simpl.
    rewrite from_destination_hop_line, Hc. simpl.
    split; [lia|]. intros Hle. split; auto.
  - inversion Hres; subst self'. rewrite hop_lines_hop_events. simpl.
    rewrite from_destination_hop_line, Hc. simpl.
    split; [lia|]. intros Hle. split; [discriminate | lia].
  - destruct (IH self' Hres) as (IH1 & IH2).
    rewrite hop_lines_app, hop_lines_hop_events. simpl.
    rewrite from_destination_hop_line, Hc. simpl.
    change (ttl (next_tracer self)) with (ttl self + 1) in *.
    change (hops (next_tracer self)) with (hops self) in *.
    split; [lia|]. intros Hle. apply IH2. lia.
Qed.

(** X3. The counter a run leaves tells how the run went: it is the first
    TTL plus the number of hop results printed, less one when the
    destination answered, because [break] skips the increment.  So for a
    session entered within its limit, the destination was reached exactly
    when the counter is still within the limit at the end. *)
Theorem counter_tells_terminal_state (e : env) (self self' : Tracer)
    (dst_ip : string) :
  gethostbyname e (dst self) = inl dst_ip ->
  fst (run e self world0) = Ok (Some self') ->
  let tr := trace (snd (run e self world0)) in
  ttl self' = ttl self + Z.of_nat (List.length (hop_lines tr))
              - (if reached dst_ip tr then 1 else 0) /\
  (ttl self <= hops self ->
   (reached dst_ip tr = true <-> ttl self' <= hops self)).
Proof.
  intros Hip Hres tr. subst tr.
  pose proof (run_runs e self) as Hrun. rewrite Hip in Hrun.
  destruct Hrun as (evs & res & Hres' & Htr & Hruns).
  rewrite Hres in Hres'. symmetry in Hres'.
  destruct (runs_counter _ _ _ _ _ _ Hruns self' Hres') as (H1 & H2).
  unfold reached in *. rewrite Htr, hop_lines_app. simpl app. auto.
Qed.

Lemma counter_tells_terminal_state_witness :
  reached "93.184.216.34"
    (trace (snd (run Sample.e (Sample.tracer 3) world0))) = true <-> 2 <= 3.
Proof.
  destruct (counter_tells_terminal_state Sample.e (Sample.tracer 3)
              (set_ttl (Sample.tracer 3) 2) "93.184.216.34") as (_ & H).
  - reflexivity.
  - vm_compute. reflexivity.
  - apply H. simpl. lia.
Defined.

(** ** The events around a probe *)

Lemma hop_events_split_send (e : env) (self : Tracer) (r : fd)
    (evs pre post : list event) s p h q :
  bind_error (hop e (ttl self)) = None ->
  hop_events e self r ++ evs = pre ++ EvSendTo s p h q :: post ->
  (pre = [EvSocket r RawIcmp; EvRcvTimeo r 5 0;
          EvBind r "" (port self) None;
          EvSocket s DgramUdp; EvSetTtl s (ttl self)] /\
   s = S r /\ p = [] /\ h = dst self /\ q = port self /\
   post = [EvRecvFrom r 1024 (incoming (hop e (ttl self))); EvClose r;
           EvClose s; EvPrint (hop_line e (ttl self))] ++ evs) \/
  (exists pre', pre = hop_events e self r ++ pre' /\
                evs = pre' ++ EvSendTo s p h q :: post).
Proof.
  intros Hb H. unfold hop_events, setup_events in *. rewrite Hb in *.
  simpl in H.
  do 5 (destruct pre as [|? pre]; [discriminate|];
        simpl in H; injection H as <- H).
  destruct pre as [|? pre].
  - simpl in H. injection H as <- <- <- <- <-. left. repeat split.
  - simpl in H. injection H as <- H.
    do 4 (destruct pre as [|? pre]; [discriminate|];
          simpl in H; injection H as <- H).
    right. exists pre. split; [reflexivity | exact H].
Qed.

Lemma runs_probe_wrapped (e : env) (dst_ip : string) self r evs res :
  runs e dst_ip self r evs res ->
  forall pre s p h q post,
    evs = pre ++ EvSendTo s p h q :: post ->
    exists pre0 rcv t post0,
      pre = pre0 ++ [EvSocket rcv RawIcmp; EvRcvTimeo rcv 5 0;
                     EvBind rcv "" (port self) None;
                     EvSocket s DgramUdp; EvSetTtl s t] /\
      post = [EvRecvFrom rcv 1024 (incoming (hop e t)); EvClose rcv;
              EvClose s; EvPrint (hop_line e t)] ++ post0 /\
      rcv <> s.
Proof.
  induction 1 as [self r err Hb | self r Hb Hc | self r Hb Hc Hlim
                 | self r evs res Hb Hc Hlim Hruns IH];
    intros pre s p h q post Heq.
  - unfold setup_events in Heq.
    do 3 (destruct pre as [|? pre]; [discriminate|];
          simpl in Heq; injection Heq as <- Heq).
    destruct pre; discriminate.
  - rewrite <- (app_nil_r (hop_events e self r)) in Heq.
    destruct (hop_events_split_send _ _ _ _ _ _ _ _ _ _ Hb Heq)
      as [(Hpre & Hs & _ & _ & _ & Hpost)|(pre' & _ & Hnil)].
    + exists [], r, (ttl self), []. subst. repeat split. lia.
    + destruct pre'; discriminate.
  - rewrite <- (app_nil_r (hop_events e self r)) in Heq.
    destruct (hop_events_split_send _ _ _ _ _ _ _ _ _ _ Hb Heq)
      as [(Hpre & Hs & _ & _ & _ & Hpost)|(pre' & _ & Hnil)].
    + exists [], r, (ttl self), []. subst. repeat split. lia.
    + destruct pre'; discriminate.
  - destruct (hop_events_split_send _ _ _ _ _ _ _ _ _ _ Hb Heq)
      as [(Hpre & Hs & _ & _ & _ & Hpost)|(pre' & Hpre & Hevs)].
    + exists [], r, (ttl self), evs. subst. repeat split. lia.
    + destruct (IH _ _ _ _ _ _ Hevs) as (pre0 & rcv & t & post0 & H1 & H2 & H3).
      exists (hop_events e self r ++ pre0), rcv, t, post0.
      repeat split; trivial.
      rewrite Hpre, H1. now rewrite app_assoc.
Qed.

(** X4. Every probe of a run is sent from inside the same fixed sequence of
    calls: a raw ICMP socket is created, given its receive timeout of five
    seconds and bound with success; then the UDP socket is created and its
    TTL set; right after the send comes one read of at most 1024 bytes on
    the bound socket, both sockets are closed, and the hop's line is
    printed, for the TTL the probe was given. *)
Theorem probe_is_wrapped (e : env) (self : Tracer) :
  forall pre s p h q post,
    trace (snd (run e self world0)) = pre ++ EvSendTo s p h q :: post ->
    exists pre0 rcv t post0,
      pre = pre0 ++ [EvSocket rcv RawIcmp; EvRcvTimeo rcv 5 0;
                     EvBind rcv "" (port self) None;
                     EvSocket s DgramUdp; EvSetTtl s t] /\
      post = [EvRecvFrom rcv 1024 (incoming (hop e t)); EvClose rcv;
              EvClose s; EvPrint (hop_line e t)] ++ post0 /\
      rcv <> s.
Proof.
  intros pre s p h q post Htr.
  pose proof (run_runs e self) as Hrun.
  destruct (gethostbyname e (dst self)) as [ip|err].
  - destruct Hrun as (evs & res & _ & Htr' & Hruns).
    rewrite Htr' in Htr. unfold prologue in Htr.
    do 2 (destruct pre as [|? pre]; [discriminate|];
          simpl in Htr; injection Htr as <- Htr).
    destruct (runs_probe_wrapped _ _ _ _ _ _ Hruns _ _ _ _ _ _ Htr)
      as (pre0 & rcv & t & post0 & H1 & H2 & H3).
    exists (EvResolve (dst self)
            :: EvPrint (Banner (dst self) ip (hops self)) :: pre0),
      rcv, t, post0.
    repeat split; trivial. now rewrite H1.
  - destruct Hrun as (_ & Htr'). rewrite Htr' in Htr.
    destruct pre as [|? [|? ?]]; discriminate.
Qed.

Lemma probe_is_wrapped_witness :
  exists pre0 rcv t post0,
    firstn 7 (trace (snd (run Sample.e (Sample.tracer 3) world0)))
    = pre0 ++ [EvSocket rcv RawIcmp; EvRcvTimeo rcv 5 0;
               EvBind rcv "" 33441 None;
               EvSocket 1%nat DgramUdp; EvSetTtl 1%nat t] /\
    skipn 8 (trace (snd (run Sample.e (Sample.tracer 3) world0)))
    = [EvRecvFrom rcv 1024 (incoming (hop Sample.e t)); EvClose rcv;
       EvClose 1%nat; EvPrint (hop_line Sample.e t)] ++ post0 /\
    rcv <> 1%nat.
Proof.
  apply (probe_is_wrapped Sample.e (Sample.tracer 3) _ 1%nat []
           "example.test"%string 33441).
  vm_compute. reflexivity.
Defined.

(** ** The sockets a run leaves open *)

(** The open sockets of the world are those the trace leaves open. *)
Lemma loop_open_fds (e : env) (dst_ip : string) (fuel : nat) :
  forall self w,
    open_fds w = open_after [] (trace w) ->
    open_fds (snd (loop fuel e dst_ip self w))
    = open_after [] (trace (snd (loop fuel e dst_ip self w))).
Proof.
  induction fuel as [|fuel IH]; intros self w Hw; [exact Hw|].
  rewrite loop_S.
  change (trace w) with (rev (log w)) in Hw.
  assert (Hhop : open_fds (after_hop e self w)
                 = open_after [] (trace (after_hop e self w))).
  { unfold after_hop. cbv zeta. rewrite trace_log, open_after_app, <- Hw.
    reflexivity. }
  destruct (bind_error (hop e (ttl self))) as [err|].
  - unfold after_abort. cbv zeta. cbn [snd].
    rewrite trace_log, open_after_app, <- Hw. reflexivity.
  - destruct (hop_ctrl e dst_ip self); [exact Hhop|].
    destruct (ttl self + 1 >? hops self)%Z; [exact Hhop|].
    apply IH, Hhop.
Qed.

Lemma run_open_fds (e : env) (self : Tracer) :
  open_fds (snd (run e self world0))
  = open_after [] (trace (snd (run e self world0))).
Proof.
  rewrite run_eq.
  destruct (gethostbyname e (dst self)) as [ip|err]; [|reflexivity].
  apply loop_open_fds. reflexivity.
Qed.

Lemma runs_abort_leaves (e : env) (dst_ip : string) self r evs res :
  runs e dst_ip self r evs res ->
  forall x,
    res = Raise x ->
    exists pre s err,
      evs = pre ++ [EvSocket s RawIcmp; EvRcvTimeo s 5 0;
                    EvBind s "" (port self) (Some err)] /\
      open_after [] evs = [s] /\
      (forall s', In s' (fds_of pre) -> (s' < s)%nat) /\
      (r <= s)%nat.
Proof.
  induction 1 as [self r err Hb | self r Hb Hc | self r Hb Hc Hlim
                 | self r evs res Hb Hc Hlim Hruns IH];
    intros x Hx; try discriminate.
  - exists [], r, err. unfold setup_events. rewrite Hb.
    repeat split; trivial. intros s' [].
  - destruct (IH x Hx) as (pre & s & err & Hevs & Hopen & Hlt & Hle).
    exists (hop_events e self r ++ pre), s, err. repeat split.
    + rewrite Hevs. now rewrite app_assoc.
    + now rewrite open_after_app, open_after_hop_events.
    + intros s' Hs'. unfold fds_of in Hs'.
      rewrite flat_map_app, in_app_iff in Hs'.
      destruct Hs' as [Hs'|Hs']; [|now apply Hlt].
      unfold hop_events, setup_events in Hs'. simpl in Hs'.
      repeat (destruct Hs' as [<-|Hs']; [lia|]). contradiction.
    + lia.
Qed.

(** X5. What a run leaves open.  A run that ends normally, or that stops
    because the name does not resolve, leaves no socket open.  A run that
    a failing bind stops leaves exactly one: the raw socket
    [create_receiver] had just created, which it does not close before
    raising; that socket is never closed and is named by no earlier
    event. *)
Theorem sockets_left_open (e : env) (self : Tracer) :
  let out := run e self world0 in
  let tr := trace (snd out) in
  match fst out with
  | Ok _ => open_fds (snd out) = []
  | Raise x =>
      (tr = [EvResolve (dst self)] /\ open_fds (snd out) = []) \/
      (exists pre s err,
          x = bind_failure err /\
          tr = pre ++ [EvSocket s RawIcmp; EvRcvTimeo s 5 0;
                       EvBind s "" (port self) (Some err)] /\
          open_fds (snd out) = [s] /\
          ~ In (EvClose s) tr /\
          ~ In s (fds_of pre))
  end.
Proof.
  intros out tr. subst out tr.
  rewrite run_open_fds.
  pose proof (run_runs e self) as Hrun.
  destruct (gethostbyname e (dst self)) as [ip|err].
  - destruct Hrun as (evs & res & Hres & Htr & Hruns).
    rewrite Hres, Htr.
    destruct res as [o|x].
    + rewrite open_after_app. simpl open_after at 2.
      eapply runs_released; eauto.
    + right.
      destruct (runs_abort_leaves _ _ _ _ _ _ Hruns x eq_refl)
        as (pre & s & err' & Hevs & Hopen & Hlt & _).
      pose proof (runs_outcome _ _ _ _ _ _ Hruns) as Hout. simpl in Hout.
      destruct Hout as (err & pre1 & s1 & Hx & Hevs1 & _).
      assert (Herr : err' = err).
      { rewrite Hevs in Hevs1.
        change (pre ++ [EvSocket s RawIcmp; EvRcvTimeo s 5 0;
                        EvBind s "" (port self) (Some err')])
          with (pre ++ [EvSocket s RawIcmp; EvRcvTimeo s 5 0]
                    ++ [EvBind s "" (port self) (Some err')]) in Hevs1.
        rewrite app_assoc in Hevs1.
        apply app_inj_tail in Hevs1. destruct Hevs1 as (_ & Hb).
        now inversion Hb. }
      subst err'.
      assert (Hfresh : ~ In s (fds_of pre)).
      { intros Hin. apply Hlt in Hin. lia. }
      exists (prologue self ip ++ pre), s, err. repeat split; trivial.
      * rewrite Hevs. now rewrite app_assoc.
      * rewrite Hevs. intros Hin.
        rewrite !in_app_iff in Hin.
        destruct Hin as [Hin|[Hin|Hin]].
        -- simpl in Hin. destruct Hin as [Hin|[Hin|[]]]; discriminate.
        -- apply Hfresh. unfold fds_of. apply in_flat_map.
           exists (EvClose s). split; [exact Hin | now left].
        -- simpl in Hin.
           destruct Hin as [Hin|[Hin|[Hin|[]]]]; discriminate.
  - destruct Hrun as (Hres & Htr). rewrite Hres, Htr. now left.
Qed.

(** ** Sessions at or past their limit *)

(** A session whose counter has reached its limit runs the body once more
    and stops. *)
Lemma run_single_iteration (e : env) (self : Tracer) (w : world)
    (dst_ip : string) :
  gethostbyname e (dst self) = inl dst_ip ->
  bind_error (hop e (ttl self)) = None ->
  exists evs,
    trace (snd (run e self w))
    = trace w ++ prologue self dst_ip ++ hop_events e self (next_fd w) ++ evs /\
    (hops self <= ttl self ->
     evs = [] /\
     fst (run e self w) = match hop_ctrl e dst_ip self with
                          | Break => Ok (Some self)
                          | Fallthrough => Ok (Some (next_tracer self))
                          end).
Proof.
  intros Hip Hbind.
  pose proof (run_runs_at e self w) as Hrun. rewrite Hip in Hrun.
  destruct Hrun as (evs & res & Hres & Htr & Hruns).
  rewrite Htr, Hres.
  inversion Hruns as [s r err Hb | s r Hb Hc | s r Hb Hc Hlim
                     | s r evs' res' Hb Hc Hlim Hruns']; subst.
  - rewrite Hbind in Hb. discriminate.
  - exists []. rewrite app_nil_r, Hc. auto.
  - exists []. rewrite app_nil_r, Hc. auto.
  - exists evs'. split; trivial. lia.
Qed.

(** ** [__init__] and [main] *)

Lemma init_eq (e : env) (d : string) (n : Z) (path : string) :
  init e d n path world0 =
  if db_found e path
  then (Ok (mkTracer d n 1 path (random_choice e (range 33434 33535))),
        world_after_init path)
  else (Raise (IOError ("Não foi possível encontrar o banco de dados GeoIP no caminho: "
                        ++ path)%string),
        mkWorld 0%nat []
          [EvPrint (Debug ("Tentando abrir o banco de dados GeoIP em " ++ path)%string)]).
Proof.
  unfold init, bind, print, emit, ret, raise, world_after_init, world0.
  cbv beta iota zeta. cbn [next_fd open_fds log].
  destruct (db_found e path); reflexivity.
Qed.

(** The session [main] creates for a hop count [n]. *)
Lemma main_session (e : env) (int_of : string -> option Z)
    (host text : string) (rest : list string) (n : Z) :
  (if String.eqb text "" then Some 30 else int_of text) = Some n ->
  db_found e default_db = true ->
  let tracer := mkTracer host n 1 default_db (random_choice e (range 33434 33535)) in
  let out := run e tracer (world_after_init default_db) in
  let r := main e int_of (host :: text :: rest) in
  prompts r = [prompt_host; prompt_hops] /\
  final r = snd out /\
  outcome r = match fst out with
              | Ok _ => None
              | Raise x => Some (Propagated x)
              end.
Proof.
  intros Hn Hdb tracer out r. subst r out tracer.
  unfold main. rewrite Hn, init_eq, Hdb.
  destruct (run e _ (world_after_init default_db)) as [[o|x] w'];
    repeat split.
Qed.

(** X7. An empty answer to the second prompt means a limit of 30 hops,
    whatever follows on the input and without [int] being called: when the
    database opens, the name resolves, no bind fails and no hop answers
    from the destination address, [main] returns normally having printed
    30 hop results, for the TTLs 1 to 30. *)
Theorem main_default_limit (e : env) (int_of : string -> option Z)
    (host dst_ip : string) (rest : list string) :
  db_found e default_db = true ->
  gethostbyname e host = inl dst_ip ->
  (forall t, 1 <= t <= 30 -> bind_error (hop e t) = None) ->
  (forall t data addr, 1 <= t <= 30 ->
     incoming (hop e t) = Some (data, addr) -> fst addr <> dst_ip) ->
  let r := main e int_of (host :: ""%string :: rest) in
  outcome r = None /\
  prompts r = [prompt_host; prompt_hops] /\
  map line_ttl (hop_lines (trace (final r))) = range 1 31.
Proof.
  intros Hdb Hip Hbind Hother r. subst r.
  destruct (main_session e int_of host "" rest 30 eq_refl Hdb)
    as (Hp & Hf & Ho).
  rewrite Hp, Hf, Ho. clear Hp Hf Ho.
  set (tracer := mkTracer host 30 1 default_db _).
  pose proof (run_runs_at e tracer (world_after_init default_db)) as Hrun.
  change (dst tracer) with host in Hrun. rewrite Hip in Hrun.
  destruct Hrun as (evs & res & Hres & Htr & Hruns).
  destruct (runs_exhaust _ _ _ _ _ _ Hruns) as (Hr & Hl).
  - simpl. lia.
  - exact Hbind.
  - exact Hother.
  - rewrite Hres, Hr, Htr. repeat split.
    rewrite !hop_lines_app. simpl app. exact Hl.
Qed.

Lemma main_default_limit_witness :
  List.length
    (hop_lines (trace (final (main Sample.all_silent int_sample
                                ["example.test"; ""]%string))))
  = 30%nat.
Proof.
  destruct (main_default_limit Sample.all_silent int_sample
              "example.test" "93.184.216.34" []) as (_ & _ & H).
  - reflexivity.
  - reflexivity.
  - reflexivity.
  - intros t d a _ Hin. discriminate.
  - rewrite <- (length_map line_ttl), H. reflexivity.
Defined.

(** X8. When the input ends before both answers are given, or the second
    answer is neither empty nor an integer, [main] stops with [EOFError]
    or [ValueError] before a session exists: the database is not opened,
    no name is resolved and no socket is created. *)
Theorem main_rejects_bad_input (e : env) (int_of : string -> option Z) :
  (main e int_of [] = mkMain [prompt_host] (Some EOFError) world0) /\
  (forall host,
      main e int_of [host]
      = mkMain [prompt_host; prompt_hops] (Some EOFError) world0) /\
  (forall host text rest,
      text <> ""%string ->
      int_of text = None ->
      main e int_of (host :: text :: rest)
      = mkMain [prompt_host; prompt_hops] (Some (ValueError text)) world0).
Proof.
  repeat split.
  intros host text rest Hne Hint. unfold main.
  destruct (String.eqb_spec text "") as [Heq|_]; [contradiction|].
  now rewrite Hint.
Qed.

Lemma main_rejects_bad_input_witness :
  main Sample.e int_sample ["example.test"; "ten"]%string
  = mkMain [prompt_host; prompt_hops] (Some (ValueError "ten")) world0.
Proof.
  destruct (main_rejects_bad_input Sample.e int_sample) as (_ & _ & H).
  apply H; [discriminate | reflexivity].
Defined.

(** X10. [main] does not check the hop count it reads: for an answer that
    is an integer below 1 a session is still created and, the database
    opening, the name resolving and the bind succeeding, one probe with
    TTL 1 is sent and one hop result printed before [main] returns. *)
Theorem main_accepts_any_limit (e : env) (int_of : string -> option Z)
    (host text dst_ip : string) (rest : list string) (n : Z) :
  text <> ""%string ->
  int_of text = Some n ->
  n < 1 ->
  db_found e default_db = true ->
  gethostbyname e host = inl dst_ip ->
  bind_error (hop e 1) = None ->
  let r := main e int_of (host :: text :: rest) in
  outcome r = None /\
  probe_ttls (trace (final r)) = [1] /\
  hop_lines (trace (final r)) = [hop_line e 1].
Proof.
  intros Hne Hint Hn Hdb Hip Hbind r. subst r.
  assert (Hparsed : (if String.eqb text "" then Some 30 else int_of text) = Some n).
  { destruct (String.eqb_spec text "") as [Heq|_]; [contradiction | exact Hint]. }
  destruct (main_session e int_of host text rest n Hparsed Hdb) as (_ & Hf & Ho).
  rewrite Hf, Ho. clear Hf Ho.
  set (tracer := mkTracer host n 1 default_db _).
  destruct (run_single_iteration e tracer (world_after_init default_db) dst_ip)
    as (evs & Htr & Hone); trivial.
  destruct Hone as (Hevs & Hres); [simpl; lia|].
  rewrite Htr, Hres, Hevs, app_nil_r.
  rewrite !probe_ttls_app, !hop_lines_app, hop_lines_hop_events,
    probe_ttls_hop_events.
  repeat split. now destruct (hop_ctrl e dst_ip tracer).
Qed.

Lemma main_accepts_any_limit_witness :
  probe_ttls (trace (final (main Sample.e int_sample
                              ["example.test"; "-4"]%string))) = [1].
Proof.
  destruct (main_accepts_any_limit Sample.e int_sample "example.test" "-4"
              "93.184.216.34" [] (-4)) as (_ & H & _).
  - discriminate.
  - reflexivity.
  - lia.
  - reflexivity.
  - reflexivity.
  - reflexivity.
  - exact H.
Defined.

(** ** The texts of [get_geoip] *)

Lemma append_nonempty (a b : string) :
  b <> ""%string -> (a ++ b)%string <> ""%string.
Proof.
  intros Hb. destruct a; simpl; [exact Hb | discriminate].
Qed.

Lemma last_char_append (a b : string) :
  b <> ""%string -> last_char (a ++ b)%string = last_char b.
Proof.
  intros Hb. induction a as [|c a IH]; trivial.
  simpl. pose proof (append_nonempty a b Hb) as Hab.
  destruct (a ++ b)%string; [contradiction | exact IH].
Qed.

Lemma last_char_coords (x a b : string) :
  last_char (x ++ (" (Lat: " ++ a ++ ", Lon: " ++ b ++ ")"))%string
  = Some ")"%char.
Proof.
  assert (H1 : (b ++ ")")%string <> ""%string)
    by (apply append_nonempty; discriminate).
  assert (H2 : (", Lon: " ++ b ++ ")")%string <> ""%string)
    by (apply append_nonempty; exact H1).
  assert (H3 : (a ++ ", Lon: " ++ b ++ ")")%string <> ""%string)
    by (apply append_nonempty; exact H2).
  assert (H4 : (" (Lat: " ++ a ++ ", Lon: " ++ b ++ ")")%string <> ""%string)
    by (apply append_nonempty; exact H3).
  rewrite (last_char_append x _ H4), (last_char_append " (Lat: " _ H3),
    (last_char_append a _ H2), (last_char_append ", Lon: " _ H1),
    (last_char_append b ")") by discriminate.
  reflexivity.
Qed.

(** X11. The text for an unknown location stands for
    [AddressNotFoundError] and for nothing else: [get_geoip] returns it
    exactly when the database raises that error, never for a record it
    found (whatever the names in the record) nor for another failure. *)
Theorem unknown_location_means_not_found (e : env) (ip : string) :
  get_geoip e ip = unknown_location <-> city e ip = AddressNotFoundError.
Proof.
  unfold get_geoip, unknown_location. split.
  - destruct (city e ip) as [r| |text]; trivial; intros H; exfalso.
    + apply (f_equal last_char) in H. cbv zeta in H.
      destruct (truthy_str (city_name r)).
      * rewrite last_char_append, last_char_append, last_char_coords in H.
        -- vm_compute in H. discriminate.
        -- intros Hnil. apply (f_equal last_char) in Hnil.
           rewrite last_char_coords in Hnil. discriminate.
        -- apply append_nonempty. intros Hnil.
           apply (f_equal last_char) in Hnil.
           rewrite last_char_coords in Hnil. discriminate.
      * rewrite last_char_coords in H. vm_compute in H. discriminate.
    + simpl in H. discriminate.
  - intros H. now rewrite H.
Qed.

(** ** How many sockets are open at once *)

Lemma remove_fd_length (s : fd) (l : list fd) :
  (List.length (remove_fd s l) <= List.length l)%nat.
Proof.
  unfold remove_fd. apply filter_length_le.
Qed.

Lemma hop_events_prefix_open (e : env) (self : Tracer) (r : fd)
    (pre l : list event) :
  hop_events e self r = pre ++ l ->
  (List.length (open_after [] pre) <= 2)%nat.
Proof.
  intros H. unfold hop_events, setup_events in H. simpl in H.
  assert (H1 : (List.length (remove_fd r [S r; r]) <= 2)%nat)
    by apply remove_fd_length.
  assert (H2 : (List.length (remove_fd (S r) (remove_fd r [S r; r])) <= 2)%nat).
  { etransitivity; [apply remove_fd_length | exact H1]. }
  do 10 (destruct pre as [|? pre];
         [cbn [open_after List.length]; first [lia | exact H1 | exact H2]
         | simpl in H; injection H as <- H]).
  destruct pre; [|discriminate]. cbn [open_after List.length]. exact H2.
Qed.

Lemma runs_prefix_open (e : env) (dst_ip : string) self r evs res :
  runs e dst_ip self r evs res ->
  forall pre post,
    evs = pre ++ post ->
    (List.length (open_after [] pre) <= 2)%nat.
Proof.
  induction 1 as [self r err Hb | self r Hb Hc | self r Hb Hc Hlim
                 | self r evs res Hb Hc Hlim Hruns IH];
    intros pre post Heq.
  - unfold setup_events in Heq.
    do 3 (destruct pre as [|? pre];
          [simpl; lia | simpl in Heq; injection Heq as <- Heq]).
    destruct pre; [|discriminate]. simpl. lia.
  - apply (hop_events_prefix_open e self r pre post Heq).
  - apply (hop_events_prefix_open e self r pre post Heq).
  - apply app_eq_app in Heq. destruct Heq as (l & [(H1 & H2)|(H1 & H2)]).
    + apply (hop_events_prefix_open e self r pre l H1).
    + rewrite H1, open_after_app, open_after_hop_events.
      apply (IH l post H2).
Qed.

(** X13. However many hops a run probes, it never holds more than two
    sockets at a time: after any number of its events at most two sockets
    are open. *)
Theorem at_most_two_sockets (e : env) (self : Tracer) :
  forall pre post,
    trace (snd (run e self world0)) = pre ++ post ->
    (List.length (open_after [] pre) <= 2)%nat.
Proof.
  intros pre post Htr.
  pose proof (run_runs e self) as Hrun.
  destruct (gethostbyname e (dst self)) as [ip|err].
  - destruct Hrun as (evs & res & _ & Htr' & Hruns).
    rewrite Htr' in Htr. unfold prologue in Htr.
    destruct pre as [|? pre]; [simpl; lia|].
    simpl in Htr. injection Htr as <- Htr.
    destruct pre as [|? pre]; [simpl; lia|].
    simpl in Htr. injection Htr as <- Htr.
    simpl. symmetry in Htr. apply (runs_prefix_open _ _ _ _ _ _ Hruns pre post).
    now symmetry.
  - destruct Hrun as (_ & Htr'). rewrite Htr' in Htr.
    destruct pre as [|? [|? ?]]; try discriminate; simpl; try lia.
    simpl in Htr. injection Htr as <- _. simpl. lia.
Qed.

Lemma at_most_two_sockets_witness :
  (List.length
     (open_after []
        (firstn 8 (trace (snd (run Sample.e (Sample.tracer 3) world0)))))
   <= 2)%nat.
Proof.
  apply (at_most_two_sockets Sample.e (Sample.tracer 3) _
           (skipn 8 (trace (snd (run Sample.e (Sample.tracer 3) world0))))).
  symmetry. apply firstn_skipn.
Defined.

(** * The program with its unguarded failures *)

Lemma os_body_eq (s : Os.sys) (dst_ip : string) (self : Tracer) (w : world) :
  Os.body s dst_ip self w =
  match Os.leaves_early s self (next_fd w) with
  | Some (evs, opened, f) => (Os.Failed f, Os.after_early evs opened w)
  | None =>
      (Os.Done (hop_ctrl (Os.base s) dst_ip self), after_hop (Os.base s) self w)
  end.
Proof.
  destruct w as [n o l].
  unfold Os.body, Os.leaves_early, Os.create_receiver, Os.create_sender,
    Os.after_early, after_hop, hop_events, hop_line, hop_ctrl, setup_events,
    bind_failure, Os.andthen, Os.call, Os.lift, Os.fail, Os.pure, socket_new,
    read_reply, bind, close, ret, print, emit.
  cbn [next_fd open_fds log].
  destruct (Os.raw_socket_error (Os.unguarded s (ttl self))); [reflexivity|].
  destruct (Os.rcvtimeo_error (Os.unguarded s (ttl self))); [reflexivity|].
  destruct (bind_error (hop (Os.base s) (ttl self))); [reflexivity|].
  destruct (Os.udp_socket_error (Os.unguarded s (ttl self))); [reflexivity|].
  destruct (Os.ip_ttl_failure (ttl self)); [reflexivity|].
  destruct (Os.sendto_error (Os.unguarded s (ttl self))); [reflexivity|].
  destruct (incoming (hop (Os.base s) (ttl self))) as [[data addr]|]; simpl;
    [destruct (String.eqb (fst addr) dst_ip)|]; reflexivity.
Qed.

Lemma os_loop_S (fuel : nat) (s : Os.sys) (dst_ip : string) (self : Tracer)
    (w : world) :
  Os.loop (S fuel) s dst_ip self w =
  match Os.leaves_early s self (next_fd w) with
  | Some (evs, opened, f) => (Os.Failed f, Os.after_early evs opened w)
  | None =>
      match hop_ctrl (Os.base s) dst_ip self with
      | Break => (Os.Done (Some self), after_hop (Os.base s) self w)
      | Fallthrough =>
          if (ttl self + 1 >? hops self)%Z
          then (Os.Done (Some (next_tracer self)), after_hop (Os.base s) self w)
          else Os.loop fuel s dst_ip (next_tracer self)
                 (after_hop (Os.base s) self w)
      end
  end.
Proof.
  change (Os.loop (S fuel) s dst_ip self w) with
    (Os.andthen (Os.body s dst_ip self)
       (fun c => match c with
                 | Break => Os.pure (Some self)
                 | Fallthrough =>
                     if (ttl (next_tracer self) >? hops (next_tracer self))%Z
                     then Os.pure (Some (next_tracer self))
                     else Os.loop fuel s dst_ip (next_tracer self)
                 end) w).
  unfold Os.andthen. rewrite os_body_eq.
  destruct (Os.leaves_early s self (next_fd w)) as [[[evs opened] f]|];
    [reflexivity|].
  destruct (hop_ctrl (Os.base s) dst_ip self); [reflexivity|].
  change (ttl (next_tracer self)) with (ttl self + 1).
  change (hops (next_tracer self)) with (hops self).
  destruct (ttl self + 1 >? hops self)%Z; reflexivity.
Qed.

Lemma os_loop_runs (s : Os.sys) (dst_ip : string) (fuel : nat) :
  forall (self : Tracer) (w : world),
    (Z.to_nat (hops self - ttl self) < fuel)%nat ->
    exists evs res,
      fst (Os.loop fuel s dst_ip self w) = res /\
      trace (snd (Os.loop fuel s dst_ip self w)) = trace w ++ evs /\
      Os.runs s dst_ip self (next_fd w) evs res.
Proof.
  induction fuel as [|fuel IH]; intros self w Hfuel; [lia|].
  rewrite os_loop_S.
  destruct (Os.leaves_early s self (next_fd w)) as [[[evs opened] f]|] eqn:He.
  - exists evs, (Os.Failed f). repeat split.
    + apply trace_log.
    + eapply Os.runs_early; eauto.
  - destruct (hop_ctrl (Os.base s) dst_ip self) eqn:Hc.
    + exists (hop_events (Os.base s) self (next_fd w)), (Os.Done (Some self)).
      repeat split; [apply trace_log | now apply Os.runs_reached].
    + destruct (ttl self + 1 >? hops self)%Z eqn:Hlim.
      * exists (hop_events (Os.base s) self (next_fd w)),
          (Os.Done (Some (next_tracer self))).
        repeat split; [apply trace_log|].
        apply Os.runs_limit; trivial. lia.
      * destruct (IH (next_tracer self) (after_hop (Os.base s) self w))
          as (evs & res & Hr & Ht & Hruns).
        { simpl. lia. }
        exists (hop_events (Os.base s) self (next_fd w) ++ evs), res.
        repeat split; trivial.
        -- rewrite Ht. unfold after_hop. cbv zeta. rewrite trace_log.
           now rewrite app_assoc.
        -- apply Os.runs_next; trivial. lia.
Qed.

Lemma os_run_eq (s : Os.sys) (self : Tracer) (w : world) :
  Os.run s self w =
  let w1 := mkWorld (next_fd w) (open_fds w) (EvResolve (dst self) :: log w) in
  match Os.resolve_escape s (dst self) with
  | Some f => (Os.Failed f, w1)
  | None =>
      match gethostbyname (Os.base s) (dst self) with
      | inr err => (Os.Failed (Os.Program (resolve_failure self err)), w1)
      | inl dst_ip =>
          Os.loop (run_fuel self) s dst_ip self
            (mkWorld (next_fd w) (open_fds w)
               (EvPrint (Banner (dst self) dst_ip (hops self))
                :: EvResolve (dst self) :: log w))
      end
  end.
Proof.
  unfold Os.run, Os.andthen, Os.lift, Os.fail, emit, print.
  destruct (Os.resolve_escape s (dst self)); [reflexivity|].
  destruct (gethostbyname (Os.base s) (dst self)); reflexivity.
Qed.

Lemma os_run_runs (s : Os.sys) (self : Tracer) (w : world) :
  match os_lookup s self with
  | inr f =>
      fst (Os.run s self w) = Os.Failed f /\
      trace (snd (Os.run s self w)) = trace w ++ [EvResolve (dst self)] /\
      next_fd (snd (Os.run s self w)) = next_fd w /\
      open_fds (snd (Os.run s self w)) = open_fds w
  | inl dst_ip =>
      exists evs res,
        fst (Os.run s self w) = res /\
        trace (snd (Os.run s self w)) = trace w ++ prologue self dst_ip ++ evs /\
        Os.runs s dst_ip self (next_fd w) evs res
  end.
Proof.
  rewrite os_run_eq. unfold os_lookup. cbv zeta.
  destruct (Os.resolve_escape s (dst self)); [repeat split|].
  destruct (gethostbyname (Os.base s) (dst self)) as [dst_ip|err];
    [|repeat split].
  destruct (os_loop_runs s dst_ip (run_fuel self) self
              (mkWorld (next_fd w) (open_fds w)
                 (EvPrint (Banner (dst self) dst_ip (hops self))
                  :: EvResolve (dst self) :: log w)))
    as (evs & res & Hr & Ht & Hruns).
  { unfold run_fuel. lia. }
  exists evs, res. repeat split; trivial.
  rewrite Ht. unfold trace, prologue. simpl. now rewrite <- !app_assoc.
Qed.

(** ** Iterations left before the read *)

Lemma ip_ttl_accepted (t : Z) :
  Os.ip_ttl_failure t = None <-> t = -1 \/ 1 <= t <= 255.
Proof.
  unfold Os.ip_ttl_failure.
  destruct (t <? -2147483648) eqn:H1; destruct (2147483647 <? t) eqn:H2;
    destruct (t =? -1) eqn:H3; destruct (1 <=? t) eqn:H4;
    destruct (t <=? 255) eqn:H5; simpl; split;
    try discriminate; try reflexivity; try lia.
Qed.

Lemma leaves_early_None (s : Os.sys) (self : Tracer) (r : fd) :
  Os.leaves_early s self r = None <->
  no_call_fails s (ttl self) /\ Os.ip_ttl_failure (ttl self) = None.
Proof.
  unfold Os.leaves_early, no_call_fails.
  destruct (Os.raw_socket_error (Os.unguarded s (ttl self)));
    [split; [discriminate | intros ((H & _) & _); discriminate]|].
  destruct (Os.rcvtimeo_error (Os.unguarded s (ttl self)));
    [split; [discriminate | intros ((_ & H & _) & _); discriminate]|].
  destruct (bind_error (hop (Os.base s) (ttl self)));
    [split; [discriminate | intros ((_ & _ & H & _) & _); discriminate]|].
  destruct (Os.udp_socket_error (Os.unguarded s (ttl self)));
    [split; [discriminate | intros ((_ & _ & _ & H & _) & _); discriminate]|].
  destruct (Os.ip_ttl_failure (ttl self));
    [split; [discriminate | intros (_ & H); discriminate]|].
  destruct (Os.sendto_error (Os.unguarded s (ttl self)));
    [split; [discriminate | intros ((_ & _ & _ & _ & H) & _); discriminate]|].
  repeat split.
Qed.

Lemma leaves_early_quiet (s : Os.sys) (self : Tracer) (r : fd) :
  no_call_fails s (ttl self) -> 1 <= ttl self <= 255 ->
  Os.leaves_early s self r = None.
Proof.
  intros Hq Ht. apply leaves_early_None. split; trivial.
  apply ip_ttl_accepted. now right.
Qed.

(** What an iteration left early has done: it has printed nothing and
    closed nothing, and the sockets it created, at most two, are open. *)
Lemma leaves_early_events (s : Os.sys) (self : Tracer) (r : fd) evs opened f :
  Os.leaves_early s self r = Some (evs, opened, f) ->
  hop_lines evs = [] /\
  (forall o, open_after o evs = opened ++ o) /\
  (forall o, released_at_prints o evs) /\
  (List.length opened <= 2)%nat /\
  (forall x, In x opened -> ~ In (EvClose x) evs) /\
  (forall x, In x (fds_of evs) -> x = r \/ x = S r) /\
  (forall x, In x opened <-> In x (fds_of evs)) /\
  filter is_resolve evs = [] /\ filter is_banner evs = [] /\
  Forall (uses_session (dst self) (port self)) evs /\
  (probe_ttls evs = [] \/
   probe_ttls evs = [ttl self] /\ Os.ip_ttl_failure (ttl self) = None) /\
  In (Some f) (raised_by_calls s self).
Proof.
  intros H. unfold raised_by_calls. cbv zeta.
  early_cases H; unfold setup_events, fds_of; simpl;
    repeat match goal with
           | H : _ = _ |- _ => rewrite H
           end; simpl;
    repeat split; auto 10; try lia;
    try (intros x Hx; intuition (try discriminate; auto; fail));
    try (repeat constructor; simpl; auto; fail).
Qed.

(** ** The TTLs a run goes through, the TTLs the system accepts *)

Lemma os_runs_ttls (s : Os.sys) (dst_ip : string) self r evs res :
  Os.runs s dst_ip self r evs res ->
  exists n : nat,
    Z.of_nat n <= Z.max 1 (hops self - ttl self + 1) /\
    (1 <= ttl self <= 256 -> ttl self + Z.of_nat n <= 256) /\
    map line_ttl (hop_lines evs) = range (ttl self) (ttl self + Z.of_nat n) /\
    (probe_ttls evs = range (ttl self) (ttl self + Z.of_nat n) \/
     probe_ttls evs = range (ttl self) (ttl self + Z.of_nat n + 1)) /\
    (forall x, res = Os.Done x ->
       (0 < n)%nat /\
       probe_ttls evs = range (ttl self) (ttl self + Z.of_nat n)).
Proof.
  induction 1 as [self r evs opened f He | self r He Hc | self r He Hc Hlim
                 | self r evs res He Hc Hlim Hruns IH].
  - exists 0%nat. rewrite Z.add_0_r, range_empty.
    destruct (leaves_early_events _ _ _ _ _ _ He)
      as (Hl & _ & _ & _ & _ & _ & _ & _ & _ & _ & Hp & _).
    rewrite Hl. repeat split; trivial; try lia; try discriminate.
    destruct Hp as [Hp|(Hp & _)]; rewrite Hp; [now left | right].
    now rewrite range_one.
  - apply leaves_early_None in He. destruct He as (_ & He).
    apply ip_ttl_accepted in He.
    exists 1%nat. rewrite hop_lines_hop_events, probe_ttls_hop_events.
    simpl map. rewrite hop_line_ttl. change (Z.of_nat 1) with 1.
    rewrite range_one. repeat split; auto; lia.
  - apply leaves_early_None in He. destruct He as (_ & He).
    apply ip_ttl_accepted in He.
    exists 1%nat. rewrite hop_lines_hop_events, probe_ttls_hop_events.
    simpl map. rewrite hop_line_ttl. change (Z.of_nat 1) with 1.
    rewrite range_one. repeat split; auto; lia.
  - apply leaves_early_None in He. destruct He as (_ & He).
    apply ip_ttl_accepted in He.
    destruct IH as (n & Hn & Hb & Hl & Hp & Hd).
    change (ttl (next_tracer self)) with (ttl self + 1) in *.
    change (hops (next_tracer self)) with (hops self) in *.
    exists (S n).
    rewrite probe_ttls_app, hop_lines_app, map_app, hop_lines_hop_events,
      probe_ttls_hop_events, Hl.
    simpl map. rewrite hop_line_ttl.
    rewrite (range_cons (ttl self) (ttl self + Z.of_nat (S n))) by lia.
    rewrite (range_cons (ttl self) (ttl self + Z.of_nat (S n) + 1)) by lia.
    replace (ttl self + Z.of_nat (S n)) with (ttl self + 1 + Z.of_nat n) by lia.
    repeat split; trivial; try lia.
    + destruct Hp as [Hp|Hp]; rewrite Hp; [now left | now right].
    + destruct (Hd x H) as (_ & Hp'). now rewrite Hp'.
Qed.

Lemma os_runs_exhaust (s : Os.sys) (dst_ip : string) self r evs res :
  Os.runs s dst_ip self r evs res ->
  1 <= ttl self <= hops self ->
  hops self <= 255 ->
  (forall t, ttl self <= t <= hops self -> no_call_fails s t) ->
  (forall t data addr, ttl self <= t <= hops self ->
     incoming (hop (Os.base s) t) = Some (data, addr) -> fst addr <> dst_ip) ->
  res = Os.Done (Some (set_ttl self (hops self + 1))) /\
  map line_ttl (hop_lines evs) = range (ttl self) (hops self + 1).
Proof.
  induction 1 as [self r evs opened f He | self r He Hc | self r He Hc Hlim
                 | self r evs res He Hc Hlim Hruns IH];
    intros Hle Hmax Hquiet Hother.
  - rewrite leaves_early_quiet in He; [discriminate | |lia].
    apply Hquiet. lia.
  - apply hop_ctrl_break in Hc. destruct Hc as (d & a & Hin & Ha).
    exfalso. apply (Hother (ttl self) d a); trivial. lia.
  - assert (Heq : ttl self = hops self) by lia.
    rewrite hop_lines_hop_events. simpl map. rewrite hop_line_ttl.
    unfold next_tracer. rewrite Heq, range_one. now split.
  - change (ttl (next_tracer self)) with (ttl self + 1) in IH.
    change (hops (next_tracer self)) with (hops self) in IH.
    destruct IH as (Hres & Hl); [lia | lia | | |].
    + intros t Ht. apply Hquiet. lia.
    + intros t d a Ht. apply Hother. lia.
    + split; [exact Hres|].
      rewrite hop_lines_app, map_app, hop_lines_hop_events, Hl.
      simpl map. rewrite hop_line_ttl.
      now rewrite (range_cons (ttl self) (hops self + 1)) by lia.
Qed.

(** Past TTL 255 the run is ended by the [setsockopt] of the next probe. *)
Lemma os_runs_refused (s : Os.sys) (dst_ip : string) self r evs res :
  Os.runs s dst_ip self r evs res ->
  1 <= ttl self <= 256 ->
  256 <= hops self ->
  (forall t, ttl self <= t <= 256 -> no_call_fails s t) ->
  (forall t data addr, ttl self <= t <= 255 ->
     incoming (hop (Os.base s) t) = Some (data, addr) -> fst addr <> dst_ip) ->
  res = Os.Failed (Os.OSError "[Errno 22] Invalid argument") /\
  map line_ttl (hop_lines evs) = range (ttl self) 256.
Proof.
  induction 1 as [self r evs opened f He | self r He Hc | self r He Hc Hlim
                 | self r evs res He Hc Hlim Hruns IH];
    intros Hle Hmax Hquiet Hother.
  - destruct (Z.eq_dec (ttl self) 256) as [Heq|Hne].
    + destruct (Hquiet (ttl self)) as (H1 & H2 & H3 & H4 & H5); [lia|].
      unfold Os.leaves_early in He.
      rewrite H1, H2, H3, H4, Heq in He.
      change (Os.ip_ttl_failure 256)
        with (Some (Os.OSError "[Errno 22] Invalid argument")) in He.
      inversion He; subst. rewrite Heq, range_empty.
      split; reflexivity.
    + rewrite leaves_early_quiet in He; [discriminate | |lia].
      apply Hquiet. lia.
  - apply leaves_early_None in He. destruct He as (_ & He).
    apply ip_ttl_accepted in He.
    apply hop_ctrl_break in Hc. destruct Hc as (d & a & Hin & Ha).
    exfalso. apply (Hother (ttl self) d a); trivial. lia.
  - apply leaves_early_None in He. destruct He as (_ & He).
    apply ip_ttl_accepted in He. lia.
  - apply leaves_early_None in He. destruct He as (_ & He).
    apply ip_ttl_accepted in He.
    change (ttl (next_tracer self)) with (ttl self + 1) in IH.
    change (hops (next_tracer self)) with (hops self) in IH.
    destruct IH as (Hres & Hl); [lia | lia | | |].
    + intros t Ht. apply Hquiet. lia.
    + intros t d a Ht. apply Hother. lia.
    + split; [exact Hres|].
      rewrite hop_lines_app, map_app, hop_lines_hop_events, Hl.
      simpl map. rewrite hop_line_ttl.
      now rewrite (range_cons (ttl self) 256) by lia.
Qed.

(** C3. With a maximum hop count N >= 1 the loop goes through the TTLs
    1, 2, ... in increasing order without a gap, and no further than the
    largest TTL the system lets a socket carry: the hop results are those
    of the TTLs [1; ...; k] for some k <= N, k <= 255, and the TTLs set on
    the probes' sockets are the same or one more.  For N <= 255, when the
    name resolves, no call to the system fails and no captured address
    equals the resolved destination address, exactly N hop results are
    emitted, the last one for TTL N, and the loop then ends (with the
    counter at N + 1).  For N >= 256 under the same conditions, 255 hop
    results are emitted, the last one for TTL 255, and the run is ended by
    the [OSError] of the [setsockopt] for TTL 256. *)
Theorem ttls_in_order_up_to_limit (s : Os.sys) (self : Tracer) :
  ttl self = 1 ->
  1 <= hops self ->
  let out := Os.run s self world0 in
  let tr := trace (snd out) in
  (exists k,
      0 <= k <= hops self /\ k <= 255 /\
      map line_ttl (hop_lines tr) = range 1 (1 + k) /\
      (probe_ttls tr = range 1 (1 + k) \/ probe_ttls tr = range 1 (2 + k))) /\
  (forall dst_ip,
      hops self <= 255 ->
      os_lookup s self = inl dst_ip ->
      (forall t, 1 <= t <= hops self -> no_call_fails s t) ->
      (forall t data addr, 1 <= t <= hops self ->
         incoming (hop (Os.base s) t) = Some (data, addr) ->
         fst addr <> dst_ip) ->
      map line_ttl (hop_lines tr) = range 1 (hops self + 1) /\
      List.length (hop_lines tr) = Z.to_nat (hops self) /\
      last (map line_ttl (hop_lines tr)) 0 = hops self /\
      fst out = Os.Done (Some (set_ttl self (hops self + 1)))) /\
  (forall dst_ip,
      256 <= hops self ->
      os_lookup s self = inl dst_ip ->
      (forall t, 1 <= t <= 256 -> no_call_fails s t) ->
      (forall t data addr, 1 <= t <= 255 ->
         incoming (hop (Os.base s) t) = Some (data, addr) ->
         fst addr <> dst_ip) ->
      map line_ttl (hop_lines tr) = range 1 256 /\
      List.length (hop_lines tr) = 255%nat /\
      last (map line_ttl (hop_lines tr)) 0 = 255 /\
      fst out = Os.Failed (Os.OSError "[Errno 22] Invalid argument")).
Proof.
  intros Httl Hhops out tr. subst out tr.
  pose proof (os_run_runs s self world0) as Hrun.
  destruct (os_lookup s self) as [ip|f].
  - destruct Hrun as (evs & res & Hres & Htr & Hruns).
    rewrite Htr, Hres. simpl app.
    split; [|split].
    3:{ intros dst_ip Hmax Hip Hquiet Hother. inversion Hip; subst ip.
        destruct (os_runs_refused _ _ _ _ _ _ Hruns) as (Hr & Hl).
        - lia.
        - exact Hmax.
        - intros t Ht. apply Hquiet. lia.
        - intros t d a Ht. apply Hother. lia.
        - rewrite Httl in Hl. simpl hop_lines.
          assert (Hlen : List.length (hop_lines evs) = 255%nat).
          { rewrite <- (length_map line_ttl), Hl, range_length. lia. }
          repeat split; trivial.
          rewrite Hl, range_last by lia. lia. }
    + destruct (os_runs_ttls _ _ _ _ _ _ Hruns) as (n & Hn & Hb & Hl & Hp & _).
      rewrite Httl in Hn, Hb, Hl, Hp.
      exists (Z.of_nat n).
      replace (2 + Z.of_nat n) with (1 + Z.of_nat n + 1) by lia.
      split; [lia|]. split; [lia|]. split; [exact Hl | exact Hp].
    + intros dst_ip Hmax Hip Hquiet Hother. inversion Hip; subst ip.
      destruct (os_runs_exhaust _ _ _ _ _ _ Hruns) as (Hr & Hl).
      * lia.
      * exact Hmax.
      * intros t Ht. apply Hquiet. lia.
      * intros t d a Ht. apply Hother. lia.
      * rewrite Httl in Hl. simpl hop_lines.
        assert (Hlen : List.length (hop_lines evs) = Z.to_nat (hops self)).
        { rewrite <- (length_map line_ttl), Hl, range_length. lia. }
        repeat split; trivial.
        rewrite Hl, range_last by lia. lia.
  - destruct Hrun as (_ & Htr & _). rewrite Htr. split; [|split].
    + exists 0. simpl. rewrite range_empty. repeat split; auto; lia.
    + intros dst_ip _ Hip. discriminate.
    + intros dst_ip _ Hip. discriminate.
Qed.

(** The sample session with every hop silent and a limit of two hops. *)
Lemma ttls_in_order_up_to_limit_witness :
  map line_ttl
    (hop_lines (trace (snd (Os.run (calm_sys Sample.all_silent)
                              (Sample.tracer 2) world0))))
  = [1; 2] /\
  fst (Os.run (calm_sys Sample.all_silent) (Sample.tracer 2) world0)
  = Os.Done (Some (set_ttl (Sample.tracer 2) 3)).
Proof.
  destruct (ttls_in_order_up_to_limit (calm_sys Sample.all_silent)
              (Sample.tracer 2)) as (_ & H & _).
  - reflexivity.
  - simpl. lia.
  - destruct (H "93.184.216.34"%string) as (H1 & _ & _ & H4).
    + simpl. lia.
    + reflexivity.
    + intros t _. repeat split.
    + intros t d a _ Hin. discriminate.
    + split; [exact H1 | exact H4].
Defined.

(** With a limit of 256 hops, every hop silent and no other call failing,
    the run prints 255 hop results and is ended by the [setsockopt] of the
    probe with TTL 256, which the system refuses. *)
Lemma every_limit_is_exhausted_fails :
  ~ every_limit_is_exhausted (calm_sys Sample.all_silent) (Sample.tracer 256).
Proof.
  intros H.
  destruct (H "93.184.216.34"%string) as (_ & self' & Hd).
  - reflexivity.
  - intros t. repeat split.
  - intros t d a Hin. discriminate.
  - vm_compute in Hd. discriminate.
Qed.

Lemma limit_256_run :
  List.length
    (hop_lines (trace (snd (Os.run (calm_sys Sample.all_silent)
                              (Sample.tracer 256) world0)))) = 255%nat /\
  fst (Os.run (calm_sys Sample.all_silent) (Sample.tracer 256) world0)
  = Os.Failed (Os.OSError "[Errno 22] Invalid argument").
Proof.
  split; vm_compute; reflexivity.
Qed.

(** ** Sockets, with the iterations that are left early *)

Lemma leaves_early_fresh (s : Os.sys) (self : Tracer) (r : fd) evs opened f :
  Os.leaves_early s self r = Some (evs, opened, f) ->
  forall old,
    (forall x, In x old -> (x < r)%nat) ->
    fresh_per_hop old [] evs.
Proof.
  intros H old Hold.
  assert (Hr : forall x, In x [r] -> ~ In x old).
  { intros x [<-|[]] Hx. apply Hold in Hx. lia. }
  assert (HSr : forall x, In x [S r] -> ~ In x old).
  { intros x [<-|[]] Hx. apply Hold in Hx. lia. }
  early_cases H; unfold setup_events; simpl; tauto.
Qed.

Lemma os_runs_released (s : Os.sys) (dst_ip : string) self r evs res :
  Os.runs s dst_ip self r evs res ->
  released_at_prints [] evs /\
  (forall x, res = Os.Done x -> open_after [] evs = []).
Proof.
  induction 1 as [self r evs opened f He | self r He Hc | self r He Hc Hlim
                 | self r evs res He Hc Hlim Hruns IH].
  - split; [|discriminate]. now apply (leaves_early_events _ _ _ _ _ _ He).
  - split; [apply released_hop_events|]. intros _ _. apply open_after_hop_events.
  - split; [apply released_hop_events|]. intros _ _. apply open_after_hop_events.
  - destruct IH as (IH1 & IH2). split.
    + apply released_at_prints_app; [apply released_hop_events|].
      now rewrite open_after_hop_events.
    + intros x Hx. rewrite open_after_app, open_after_hop_events. eauto.
Qed.

Lemma os_runs_fresh (s : Os.sys) (dst_ip : string) self r evs res :
  Os.runs s dst_ip self r evs res ->
  forall old,
    (forall x, In x old -> (x < r)%nat) ->
    fresh_per_hop old [] evs.
Proof.
  assert (Hnew : forall (n : fd) old,
             (forall x, In x old -> (x < n)%nat) ->
             (forall x, In x [n] -> ~ In x old) /\
             (forall x, In x [S n] -> ~ In x old)).
  { intros n old Hold.
    split; intros x [<-|[]] Hx; apply Hold in Hx; lia. }
  induction 1 as [self r evs opened f He | self r He Hc | self r He Hc Hlim
                 | self r evs res He Hc Hlim Hruns IH];
    intros old Hold; destruct (Hnew r old Hold) as (Hr & HSr).
  - eapply leaves_early_fresh; eauto.
  - unfold hop_events, setup_events. simpl. tauto.
  - unfold hop_events, setup_events. simpl. tauto.
  - unfold hop_events, setup_events. simpl. repeat (split; trivial).
    apply IH. intros x Hx. simpl in Hx.
    repeat (destruct Hx as [<-|Hx]; [lia|]).
    apply Hold in Hx. lia.
Qed.

Lemma hop_events_bind_ok (e : env) (self : Tracer) (r : fd) :
  bind_error (hop e (ttl self)) = None ->
  Forall bind_ok (hop_events e self r).
Proof.
  intros Hb. unfold hop_events, setup_events. rewrite Hb. simpl.
  repeat constructor.
Qed.

(** A run of the loop that fails is a sequence of whole iterations followed
    by one that is left before its read. *)
Lemma os_runs_failed (s : Os.sys) (dst_ip : string) self r evs res :
  Os.runs s dst_ip self r evs res ->
  forall f,
    res = Os.Failed f ->
    exists t r' pre early opened,
      evs = pre ++ early /\
      Os.leaves_early s (set_ttl self t) r' = Some (early, opened, f) /\
      ttl self <= t /\
      map line_ttl (hop_lines pre) = range (ttl self) t /\
      Forall (fun u => no_call_fails s u /\ Os.ip_ttl_failure u = None)
             (range (ttl self) t) /\
      Forall bind_ok pre /\
      open_after [] pre = [] /\
      (forall x, In x (fds_of pre) -> (x < r')%nat) /\
      (r <= r')%nat.
Proof.
  induction 1 as [self r evs opened f0 He | self r He Hc | self r He Hc Hlim
                 | self r evs res He Hc Hlim Hruns IH];
    intros f Hf; try discriminate.
  - inversion Hf; subst f0.
    exists (ttl self), r, [], evs, opened. rewrite range_empty.
    repeat split; trivial; try lia; try constructor.
    intros x [].
  - destruct (IH f Hf) as (t & r' & pre & early & opened & Hevs & Hearly
                           & Ht & Hl & Hq & Hb & Ho & Hlt & Hr').
    change (ttl (next_tracer self)) with (ttl self + 1) in *.
    exists t, r', (hop_events (Os.base s) self r ++ pre), early, opened.
    apply leaves_early_None in He.
    repeat split; trivial.
    + rewrite Hevs. now rewrite app_assoc.
    + lia.
    + rewrite hop_lines_app, map_app, hop_lines_hop_events, Hl.
      simpl map. rewrite hop_line_ttl.
      now rewrite (range_cons (ttl self) t) by lia.
    + rewrite (range_cons (ttl self) t) by lia. constructor; trivial.
    + apply Forall_app. split; trivial.
      apply hop_events_bind_ok. apply He.
    + now rewrite open_after_app, open_after_hop_events.
    + intros x Hx. unfold fds_of in Hx.
      rewrite flat_map_app, in_app_iff in Hx.
      destruct Hx as [Hx|Hx]; [|now apply Hlt].
      unfold hop_events, setup_events in Hx. simpl in Hx.
      repeat (destruct Hx as [<-|Hx]; [lia|]). contradiction.
    + lia.
Qed.

(** The open sockets of the world are those the trace leaves open. *)
Lemma os_loop_open_fds (s : Os.sys) (dst_ip : string) (fuel : nat) :
  forall self w,
    open_fds w = open_after [] (trace w) ->
    open_fds (snd (Os.loop fuel s dst_ip self w))
    = open_after [] (trace (snd (Os.loop fuel s dst_ip self w))).
Proof.
  induction fuel as [|fuel IH]; intros self w Hw; [exact Hw|].
  rewrite os_loop_S.
  change (trace w) with (rev (log w)) in Hw.
  assert (Hhop : open_fds (after_hop (Os.base s) self w)
                 = open_after [] (trace (after_hop (Os.base s) self w))).
  { unfold after_hop. cbv zeta. rewrite trace_log, open_after_app, <- Hw.
    reflexivity. }
  destruct (Os.leaves_early s self (next_fd w)) as [[[evs opened] f]|] eqn:He.
  - unfold Os.after_early. cbn [snd open_fds].
    rewrite trace_log, open_after_app, <- Hw.
    symmetry. now apply (leaves_early_events _ _ _ _ _ _ He).
  - destruct (hop_ctrl (Os.base s) dst_ip self); [exact Hhop|].
    destruct (ttl self + 1 >? hops self)%Z; [exact Hhop|].
    apply IH, Hhop.
Qed.

Lemma os_run_open_fds (s : Os.sys) (self : Tracer) :
  open_fds (snd (Os.run s self world0))
  = open_after [] (trace (snd (Os.run s self world0))).
Proof.
  rewrite os_run_eq. cbv zeta.
  destruct (Os.resolve_escape s (dst self)); [reflexivity|].
  destruct (gethostbyname (Os.base s) (dst self)) as [ip|err]; [|reflexivity].
  apply os_loop_open_fds. reflexivity.
Qed.

(** C5. Both sockets of an iteration that reaches its read are closed
    before the iteration ends, whatever the read did: the body, entered
    with no socket open and none of its calls before the read failing,
    closes the receiving and the sending socket right after the read and
    before it prints the hop's line, with or without a reply.  An
    iteration left before the read, by a call that raises, closes nothing:
    the sockets it had created stay open and the run ends there.  So at
    every line a run prints no socket is open, no socket named before a
    line is ever named after it, a run that ends normally leaves none
    open, and a run that fails leaves open what its last iteration had
    created, at most two sockets. *)
Theorem endpoints_released_after_read (s : Os.sys) (self : Tracer) :
  let out := Os.run s self world0 in
  let tr := trace (snd out) in
  (forall dst_ip (it : Tracer) (w : world),
      no_call_fails s (ttl it) ->
      Os.ip_ttl_failure (ttl it) = None ->
      open_fds w = [] ->
      open_fds (snd (Os.body s dst_ip it w)) = [] /\
      exists pre,
        trace (snd (Os.body s dst_ip it w))
        = trace w ++ pre
          ++ [EvRecvFrom (next_fd w) 1024 (incoming (hop (Os.base s) (ttl it)));
              EvClose (next_fd w); EvClose (S (next_fd w));
              EvPrint (hop_line (Os.base s) (ttl it))]) /\
  (forall dst_ip (it : Tracer) (w : world) evs opened f,
      Os.leaves_early s it (next_fd w) = Some (evs, opened, f) ->
      fst (Os.body s dst_ip it w) = Os.Failed f /\
      trace (snd (Os.body s dst_ip it w)) = trace w ++ evs /\
      open_fds (snd (Os.body s dst_ip it w)) = opened ++ open_fds w /\
      (forall x, In x opened <-> In x (fds_of evs)) /\
      (forall x, In x opened -> ~ In (EvClose x) evs)) /\
  (forall pre l post,
      tr = pre ++ EvPrint l :: post ->
      open_after [] pre = [] /\
      forall x, In x (fds_of pre) -> ~ In x (fds_of post)) /\
  (forall x, fst out = Os.Done x -> open_fds (snd out) = []) /\
  (forall f,
      fst out = Os.Failed f ->
      os_lookup s self = inr f /\ open_fds (snd out) = [] \/
      exists dst_ip t r pre early opened,
        os_lookup s self = inl dst_ip /\
        tr = pre ++ early /\
        Os.leaves_early s (set_ttl self t) r = Some (early, opened, f) /\
        open_fds (snd out) = opened /\
        (List.length opened <= 2)%nat /\
        (forall x, In x opened -> ~ In (EvClose x) tr)).
Proof.
  intros out tr. subst out tr. rewrite os_run_open_fds.
  split; [|split; [|split; [|split]]].
  - intros dst_ip it w Hq Ht Ho. rewrite os_body_eq.
    rewrite (proj2 (leaves_early_None s it (next_fd w)) (conj Hq Ht)).
    cbn [snd]. unfold after_hop. cbv zeta. split.
    + cbn [open_fds]. rewrite Ho. apply remove_pair.
    + rewrite trace_log.
      eexists (_ :: _ :: _ :: _ :: _ :: _ :: nil). reflexivity.
  - intros dst_ip it w evs opened f He. rewrite os_body_eq, He.
    unfold Os.after_early. cbn [fst snd open_fds]. rewrite trace_log.
    destruct (leaves_early_events _ _ _ _ _ _ He)
      as (_ & _ & _ & _ & Hc & _ & Hin & _).
    repeat split; trivial; apply Hin.
  - intros pre l post Htr.
    pose proof (os_run_runs s self world0) as Hrun.
    destruct (os_lookup s self) as [ip|f].
    + destruct Hrun as (evs & res & Hres & Htr' & Hruns).
      rewrite Htr' in Htr. simpl app in Htr. split.
      * apply (released_split pre [] (prologue self ip ++ evs) l post); trivial.
        simpl. split; trivial. now apply os_runs_released in Hruns.
      * intros x Hx.
        apply (fresh_split pre [] [] (prologue self ip ++ evs) l post); auto.
        simpl. split; [tauto|].
        apply (os_runs_fresh _ _ _ _ _ _ Hruns). intros x0 [].
    + destruct Hrun as (_ & Htr' & _). rewrite Htr' in Htr.
      destruct pre as [|? [|? ?]]; discriminate.
  - intros x Hx.
    pose proof (os_run_runs s self world0) as Hrun.
    destruct (os_lookup s self) as [ip|f].
    + destruct Hrun as (evs & res & Hres & Htr' & Hruns).
      rewrite Htr'. rewrite Hres in Hx. simpl app.
      destruct (os_runs_released _ _ _ _ _ _ Hruns) as (_ & Hopen).
      exact (Hopen x Hx).
    + destruct Hrun as (Hres & _). rewrite Hres in Hx. discriminate.
  - intros f Hf.
    pose proof (os_run_runs s self world0) as Hrun.
    destruct (os_lookup s self) as [ip|f0].
    + right. destruct Hrun as (evs & res & Hres & Htr' & Hruns).
      rewrite Hres in Hf.
      destruct (os_runs_failed _ _ _ _ _ _ Hruns f Hf)
        as (t & r' & pre & early & opened & Hevs & Hearly & _ & _ & _ & _
            & Ho & Hlt & _).
      destruct (leaves_early_events _ _ _ _ _ _ Hearly)
        as (_ & Hopen & _ & Hlen & Hc & Hfds & Hin & _).
      exists ip, t, r', (prologue self ip ++ pre), early, opened.
      rewrite Htr', Hevs. simpl app at 1.
      repeat split; trivial.
      * change (open_after [] (pre ++ early) = opened).
        rewrite open_after_app, Ho, Hopen. apply app_nil_r.
      * intros x Hx Hcl.
        change (In (EvClose x) (prologue self ip ++ pre ++ early)) in Hcl.
        rewrite !in_app_iff in Hcl.
        destruct Hcl as [Hcl|[Hcl|Hcl]].
        -- simpl in Hcl. intuition discriminate.
        -- assert (Hx' : In x (fds_of pre)).
           { unfold fds_of. apply in_flat_map.
             exists (EvClose x). split; trivial. now left. }
           apply Hlt in Hx'. apply Hin, Hfds in Hx. lia.
        -- now apply (Hc x).
    + left. destruct Hrun as (Hres & Htr' & _).
      rewrite Hres in Hf. inversion Hf; subst f0.
      rewrite Htr'. now split.
Qed.

(** The sample session, where the second hop is the destination. *)
Lemma endpoints_released_after_read_witness :
  open_fds (snd (Os.body (calm_sys Sample.e) "93.184.216.34"
                   (Sample.tracer 3) world0)) = [] /\
  open_fds (snd (Os.run (calm_sys Sample.e) (Sample.tracer 3) world0)) = [].
Proof.
  destruct (endpoints_released_after_read (calm_sys Sample.e) (Sample.tracer 3))
    as (Hbody & _ & _ & Hdone & _).
  split.
  - apply (Hbody "93.184.216.34"%string (Sample.tracer 3) world0).
    + repeat split.
    + reflexivity.
    + reflexivity.
  - apply (Hdone (Some (set_ttl (Sample.tracer 3) 2))).
    vm_compute. reflexivity.
Defined.

(** When [sendto] raises, the body is left with both of its sockets
    open. *)
Lemma every_exit_releases_fails :
  ~ every_exit_releases unreachable_sys (Sample.tracer 3).
Proof.
  intros H.
  specialize (H "93.184.216.34"%string world0 eq_refl).
  vm_compute in H. discriminate.
Qed.

Lemma unreachable_run :
  fst (Os.run unreachable_sys (Sample.tracer 3) world0)
  = Os.Failed (Os.OSError "[Errno 101] Network is unreachable") /\
  trace (snd (Os.run unreachable_sys (Sample.tracer 3) world0))
  = [EvResolve "example.test";
     EvPrint (Banner "example.test" "93.184.216.34" 3);
     EvSocket 0%nat RawIcmp; EvRcvTimeo 0%nat 5 0;
     EvBind 0%nat "" 33441 None;
     EvSocket 1%nat DgramUdp; EvSetTtl 1%nat 1] /\
  open_fds (snd (Os.run unreachable_sys (Sample.tracer 3) world0))
  = [1%nat; 0%nat].
Proof.
  repeat split; vm_compute; reflexivity.
Qed.

(** ** How a run can end, with the failures of the unguarded calls *)

Lemma os_lookup_failed (s : Os.sys) (self : Tracer) (f : Os.failure) :
  os_lookup s self = inr f <->
  Os.resolve_escape s (dst self) = Some f \/
  exists err,
    Os.resolve_escape s (dst self) = None /\
    gethostbyname (Os.base s) (dst self) = inr err /\
    f = Os.Program (resolve_failure self err).
Proof.
  unfold os_lookup.
  destruct (Os.resolve_escape s (dst self)) as [f0|].
  - split.
    + intros H. inversion H. now left.
    + intros [H|(err & H & _)]; [now inversion H | discriminate].
  - destruct (gethostbyname (Os.base s) (dst self)) as [ip|err].
    + split; [discriminate|].
      intros [H|(err & _ & H & _)]; discriminate.
    + split.
      * intros H. inversion H. right. now exists err.
      * intros [H|(err' & _ & H & ->)]; [discriminate|]. now inversion H.
Qed.

Lemma os_runs_done (s : Os.sys) (dst_ip : string) self r evs res :
  Os.runs s dst_ip self r evs res ->
  forall x,
    res = Os.Done x ->
    exists self',
      x = Some self' /\
      (port self' = port self /\ dst self' = dst self /\ hops self' = hops self) /\
      Forall bind_ok evs /\
      Forall (fun u => no_call_fails s u /\ Os.ip_ttl_failure u = None)
             (map line_ttl (hop_lines evs)) /\
      ttl self' = ttl self + Z.of_nat (List.length (hop_lines evs))
                  - (if reached dst_ip evs then 1 else 0) /\
      (ttl self <= hops self ->
       (reached dst_ip evs = true <-> ttl self' <= hops self)).
Proof.
  unfold reached.
  induction 1 as [self r evs opened f He | self r He Hc | self r He Hc Hlim
                 | self r evs res He Hc Hlim Hruns IH];
    intros x Hx; try discriminate.
  - inversion Hx; subst x. exists self.
    apply leaves_early_None in He.
    assert (Hbk : Forall bind_ok (hop_events (Os.base s) self r))
      by apply hop_events_bind_ok, He.
    rewrite hop_lines_hop_events.
    remember (hop_events (Os.base s) self r) as blk eqn:Hblk. clear Hblk.
    simpl. rewrite from_destination_hop_line, Hc, hop_line_ttl. simpl.
    repeat split; auto; try lia.
  - inversion Hx; subst x. exists (next_tracer self).
    apply leaves_early_None in He.
    assert (Hbk : Forall bind_ok (hop_events (Os.base s) self r))
      by apply hop_events_bind_ok, He.
    rewrite hop_lines_hop_events.
    remember (hop_events (Os.base s) self r) as blk eqn:Hblk. clear Hblk.
    simpl. rewrite from_destination_hop_line, Hc, hop_line_ttl. simpl.
    repeat split; auto; try lia; try discriminate.
  - destruct (IH x Hx) as (self' & Hx' & (Hp & Hd & Hh) & Hb & Hq & Hn & Hr).
    exists self'.
    apply leaves_early_None in He.
    assert (Hbk : Forall bind_ok (hop_events (Os.base s) self r))
      by apply hop_events_bind_ok, He.
    rewrite hop_lines_app, hop_lines_hop_events.
    remember (hop_events (Os.base s) self r) as blk eqn:Hblk. clear Hblk.
    simpl. rewrite from_destination_hop_line, Hc, hop_line_ttl. simpl.
    change (ttl (next_tracer self)) with (ttl self + 1) in *.
    change (hops (next_tracer self)) with (hops self) in *.
    repeat split; auto; try lia.
    + apply Forall_app. now split.
    + intros Hreach. apply Hr; trivial; lia.
    + intros Hle. apply Hr; trivial; lia.
Qed.

(** X1. [run] ends normally exactly when the lookup returns an address and
    every iteration it enters reaches its read, no call before the read
    failing.  Otherwise it ends with the first failure it meets and does
    nothing after it.  That is the failure of the lookup, the lookup being
    then its only event: the destination [IOError] when the lookup raises
    [socket.error], the exception itself when it raises another one.  Or
    it is the failure of the first call that fails in the first iteration
    that does not reach its read, every earlier iteration having printed
    its line: the receiver [IOError] for [bind], the exception itself for
    [socket], [setsockopt] and [sendto]. *)
Theorem run_ends_with_first_failure (s : Os.sys) (self : Tracer) :
  let out := Os.run s self world0 in
  let tr := trace (snd out) in
  match fst out with
  | Os.Done (Some self') =>
      (exists dst_ip, os_lookup s self = inl dst_ip) /\
      Forall bind_ok tr /\
      Forall (fun u => no_call_fails s u /\ Os.ip_ttl_failure u = None)
             (map line_ttl (hop_lines tr))
  | Os.Done None => False
  | Os.Failed f =>
      ((Os.resolve_escape s (dst self) = Some f \/
        exists err,
          Os.resolve_escape s (dst self) = None /\
          gethostbyname (Os.base s) (dst self) = inr err /\
          f = Os.Program (resolve_failure self err)) /\
       tr = [EvResolve (dst self)]) \/
      (exists dst_ip t r pre early opened,
          os_lookup s self = inl dst_ip /\
          tr = prologue self dst_ip ++ pre ++ early /\
          map line_ttl (hop_lines pre) = range (ttl self) t /\
          Forall (fun u => no_call_fails s u /\ Os.ip_ttl_failure u = None)
                 (range (ttl self) t) /\
          Forall bind_ok pre /\
          Os.leaves_early s (set_ttl self t) r = Some (early, opened, f) /\
          In (Some f) (raised_by_calls s (set_ttl self t)) /\
          hop_lines early = [])
  end.
Proof.
  intros out tr. subst out tr.
  pose proof (os_run_runs s self world0) as Hrun.
  pose proof (os_lookup_failed s self) as Hlook.
  destruct (os_lookup s self) as [ip|f0].
  - destruct Hrun as (evs & res & Hres & Htr & Hruns).
    rewrite Hres, Htr. simpl app.
    destruct res as [x|f].
    + destruct (os_runs_done _ _ _ _ _ _ Hruns x eq_refl)
        as (self' & -> & _ & Hb & Hq & _).
      split; [now exists ip|]. split; trivial.
      repeat constructor. exact Hb.
    + right.
      destruct (os_runs_failed _ _ _ _ _ _ Hruns f eq_refl)
        as (t & r' & pre & early & opened & Hevs & Hearly & _ & Hl & Hq
            & Hb & _).
      destruct (leaves_early_events _ _ _ _ _ _ Hearly)
        as (Hnone & _ & _ & _ & _ & _ & _ & _ & _ & _ & _ & Hin).
      exists ip, t, r', pre, early, opened.
      rewrite Hevs. repeat split; trivial.
  - destruct Hrun as (Hres & Htr & _). rewrite Hres, Htr.
    left. split; [|reflexivity]. now apply Hlook.
Qed.

(** ** Running a session again *)

Lemma os_run_single_iteration (s : Os.sys) (self : Tracer) (w : world)
    (dst_ip : string) :
  os_lookup s self = inl dst_ip ->
  no_call_fails s (ttl self) ->
  Os.ip_ttl_failure (ttl self) = None ->
  exists evs,
    trace (snd (Os.run s self w))
    = trace w ++ prologue self dst_ip
      ++ hop_events (Os.base s) self (next_fd w) ++ evs /\
    (hops self <= ttl self ->
     evs = [] /\
     fst (Os.run s self w)
     = match hop_ctrl (Os.base s) dst_ip self with
       | Break => Os.Done (Some self)
       | Fallthrough => Os.Done (Some (next_tracer self))
       end).
Proof.
  intros Hip Hq Ht.
  pose proof (os_run_runs s self w) as Hrun. rewrite Hip in Hrun.
  destruct Hrun as (evs & res & Hres & Htr & Hruns).
  rewrite Htr, Hres.
  inversion Hruns as [it r evs0 opened f He | it r He Hc | it r He Hc Hlim
                     | it r evs' res' He Hc Hlim Hruns']; subst.
  - rewrite (proj2 (leaves_early_None s self (next_fd w)) (conj Hq Ht)) in He.
    discriminate.
  - exists []. rewrite app_nil_r, Hc. auto.
  - exists []. rewrite app_nil_r, Hc. auto.
  - exists evs'. split; trivial. lia.
Qed.

(** X6. [run] does not reset the counter.  A session that has run to a
    normal end keeps its host, port and limit and has its counter at the
    first TTL plus the number of hop results printed, less one when the
    destination answered.  When it is run again, on whatever the system
    then is, the name resolving and no call of the first iteration
    failing (the counter being a TTL the system accepts), the first probe
    of the new run carries that counter as its TTL, and if the counter has
    reached the limit it is the only probe of the new run. *)
Theorem second_run_starts_at_counter (s1 s2 : Os.sys) (self self' : Tracer)
    (dst_ip : string) :
  fst (Os.run s1 self world0) = Os.Done (Some self') ->
  os_lookup s2 self' = inl dst_ip ->
  no_call_fails s2 (ttl self') ->
  Os.ip_ttl_failure (ttl self') = None ->
  let w1 := snd (Os.run s1 self world0) in
  (exists ip1,
      os_lookup s1 self = inl ip1 /\
      ttl self' = ttl self + Z.of_nat (List.length (hop_lines (trace w1)))
                  - (if reached ip1 (trace w1) then 1 else 0)) /\
  exists evs,
    trace (snd (Os.run s2 self' w1))
    = trace w1 ++ prologue self dst_ip
      ++ [EvSocket (next_fd w1) RawIcmp; EvRcvTimeo (next_fd w1) 5 0;
          EvBind (next_fd w1) "" (port self) None;
          EvSocket (S (next_fd w1)) DgramUdp;
          EvSetTtl (S (next_fd w1)) (ttl self');
          EvSendTo (S (next_fd w1)) [] (dst self) (port self);
          EvRecvFrom (next_fd w1) 1024 (incoming (hop (Os.base s2) (ttl self')));
          EvClose (next_fd w1); EvClose (S (next_fd w1));
          EvPrint (hop_line (Os.base s2) (ttl self'))]
      ++ evs /\
    (hops self <= ttl self' -> evs = []).
Proof.
  intros Hres Hip Hq Ht w1.
  pose proof (os_run_runs s1 self world0) as Hrun.
  destruct (os_lookup s1 self) as [ip1|f].
  2:{ destruct Hrun as (Hf & _). rewrite Hf in Hres. discriminate. }
  destruct Hrun as (evs1 & res1 & Hres1 & Htr1 & Hruns1).
  rewrite Hres in Hres1. symmetry in Hres1.
  destruct (os_runs_done _ _ _ _ _ _ Hruns1 _ Hres1)
    as (self0 & Hx & (Hport & Hdst & Hhops) & _ & _ & Hn & _).
  inversion Hx; subst self0. clear Hx.
  split.
  - exists ip1. split; trivial. subst w1. rewrite Htr1.
    unfold reached. simpl app. exact Hn.
  - destruct (os_run_single_iteration s2 self' w1 dst_ip Hip Hq Ht)
      as (evs & Htr & Hone).
    exists evs. split.
    + rewrite Htr. unfold prologue, hop_events, setup_events.
      destruct Hq as (_ & _ & Hb & _).
      rewrite Hb, Hport, Hdst, Hhops. reflexivity.
    + intros Hle. apply Hone. lia.
Qed.

Lemma second_run_starts_at_counter_witness :
  probe_ttls
    (trace (snd (Os.run (calm_sys Sample.e) (set_ttl (Sample.tracer 2) 3)
                   (snd (Os.run (calm_sys Sample.all_silent)
                           (Sample.tracer 2) world0)))))
  = [1; 2; 3].
Proof.
  destruct (second_run_starts_at_counter (calm_sys Sample.all_silent)
              (calm_sys Sample.e) (Sample.tracer 2)
              (set_ttl (Sample.tracer 2) 3) "93.184.216.34")
    as (_ & evs & Htr & Hone).
  - vm_compute. reflexivity.
  - reflexivity.
  - repeat split.
  - reflexivity.
  - rewrite Htr, (Hone ltac:(simpl; lia)).
    vm_compute. reflexivity.
Defined.

(** ** [__init__] and [main], with what the handlers let through *)

Lemma os_init_eq (s : Os.sys) (d : string) (n : Z) (path : string) :
  Os.init s d n path world0 =
  let tried :=
    mkWorld 0%nat []
      [EvPrint (Debug ("Tentando abrir o banco de dados GeoIP em " ++ path)%string)] in
  match Os.db_escape s path with
  | Some f => (Os.Failed f, tried)
  | None =>
      if db_found (Os.base s) path
      then (Os.Done (mkTracer d n 1 path
                       (random_choice (Os.base s) (range 33434 33535))),
            world_after_init path)
      else (Os.Failed
              (Os.Program
                 (IOError ("Não foi possível encontrar o banco de dados GeoIP no caminho: "
                           ++ path)%string)),
            tried)
  end.
Proof.
  unfold Os.init, Os.andthen, Os.lift, Os.fail, Os.pure, print, emit,
    world_after_init, world0.
  cbv beta iota zeta. cbn [next_fd open_fds log].
  destruct (Os.db_escape s path); [reflexivity|].
  destruct (db_found (Os.base s) path); reflexivity.
Qed.

(** The session [main] creates for a hop count [n]. *)
Lemma os_main_session (s : Os.sys) (int_of : string -> option Z)
    (host text : string) (rest : list string) (n : Z) :
  (if String.eqb text "" then Some 30 else int_of text) = Some n ->
  Os.db_escape s default_db = None ->
  db_found (Os.base s) default_db = true ->
  let tracer :=
    mkTracer host n 1 default_db
      (random_choice (Os.base s) (range 33434 33535)) in
  let out := Os.run s tracer (world_after_init default_db) in
  let r := Os.main s int_of (host :: text :: rest) in
  Os.asked r = [prompt_host; prompt_hops] /\
  Os.left r = snd out /\
  Os.ended r = match fst out with
               | Os.Done _ => None
               | Os.Failed f => Some (Os.Session f)
               end.
Proof.
  intros Hn Hesc Hdb tracer out r. subst r out tracer.
  unfold Os.main. rewrite Hn, os_init_eq, Hesc, Hdb. cbv beta iota zeta.
  destruct (Os.run s _ (world_after_init default_db)) as [[o|f] w'];
    repeat split.
Qed.

(** X9. The setup failures of [main] come in a fixed order and before any
    socket exists.  When the database reader raises, [main] ends after the
    first progress message and the name is never looked up: with the
    database [IOError] when the reader raises [FileNotFoundError], with
    the reader's exception itself otherwise.  When the database opens but
    the lookup raises, [main] ends right after the lookup, with no banner
    and no socket: with the destination [IOError] when the lookup raises
    [socket.error], with the lookup's exception itself otherwise. *)
Theorem main_setup_failures_in_order (s : Os.sys)
    (int_of : string -> option Z) (host text : string) (rest : list string)
    (n : Z) :
  (if String.eqb text "" then Some 30 else int_of text) = Some n ->
  let r := Os.main s int_of (host :: text :: rest) in
  let tried :=
    [EvPrint (Debug ("Tentando abrir o banco de dados GeoIP em " ++ default_db)%string)] in
  let opened := Os.db_escape s default_db = None /\
                db_found (Os.base s) default_db = true in
  (forall f,
      Os.db_escape s default_db = Some f ->
      Os.ended r = Some (Os.Session f) /\ trace (Os.left r) = tried) /\
  (Os.db_escape s default_db = None ->
   db_found (Os.base s) default_db = false ->
   Os.ended r
   = Some (Os.Session
             (Os.Program
                (IOError ("Não foi possível encontrar o banco de dados GeoIP no caminho: "
                          ++ default_db)%string))) /\
   trace (Os.left r) = tried) /\
  (forall f,
      opened ->
      Os.resolve_escape s host = Some f ->
      Os.ended r = Some (Os.Session f) /\
      trace (Os.left r)
      = trace (world_after_init default_db) ++ [EvResolve host] /\
      next_fd (Os.left r) = 0%nat) /\
  (forall err,
      opened ->
      Os.resolve_escape s host = None ->
      gethostbyname (Os.base s) host = inr err ->
      Os.ended r
      = Some (Os.Session
                (Os.Program
                   (IOError ("Não foi possível encontrar o destino " ++ host
                             ++ " : " ++ err)%string))) /\
      trace (Os.left r)
      = trace (world_after_init default_db) ++ [EvResolve host] /\
      next_fd (Os.left r) = 0%nat).
Proof.
  intros Hn r tried opened. subst r tried opened.
  split; [|split; [|split]].
  - intros f Hesc. unfold Os.main. rewrite Hn, os_init_eq, Hesc.
    split; reflexivity.
  - intros Hesc Hdb. unfold Os.main. rewrite Hn, os_init_eq, Hesc, Hdb.
    split; reflexivity.
  - intros f (Hesc & Hdb) Hres.
    destruct (os_main_session s int_of host text rest n Hn Hesc Hdb)
      as (_ & Hf & Ho).
    rewrite Hf, Ho. clear Hf Ho.
    set (tracer := mkTracer host n 1 default_db _).
    pose proof (os_run_runs s tracer (world_after_init default_db)) as Hrun.
    unfold os_lookup in Hrun. change (dst tracer) with host in Hrun.
    rewrite Hres in Hrun.
    destruct Hrun as (Hout & Htr & Hfd & _).
    rewrite Hout, Htr, Hfd. repeat split.
  - intros err (Hesc & Hdb) Hres Herr.
    destruct (os_main_session s int_of host text rest n Hn Hesc Hdb)
      as (_ & Hf & Ho).
    rewrite Hf, Ho. clear Hf Ho.
    set (tracer := mkTracer host n 1 default_db _).
    pose proof (os_run_runs s tracer (world_after_init default_db)) as Hrun.
    unfold os_lookup in Hrun. change (dst tracer) with host in Hrun.
    rewrite Hres, Herr in Hrun.
    destruct Hrun as (Hout & Htr & Hfd & _).
    rewrite Hout, Htr, Hfd. repeat split.
Qed.

Lemma main_setup_failures_in_order_witness :
  Os.ended (Os.main (calm_sys Sample.e) int_sample ["no.such.host"; "5"]%string)
  = Some (Os.Session
            (Os.Program
               (IOError "Não foi possível encontrar o destino no.such.host : Name or service not known"))).
Proof.
  destruct (main_setup_failures_in_order (calm_sys Sample.e) int_sample
              "no.such.host" "5" [] 5) as (_ & _ & _ & H).
  - reflexivity.
  - destruct (H "Name or service not known"%string) as (Ho & _).
    + split; reflexivity.
    + reflexivity.
    + reflexivity.
    + exact Ho.
Defined.

(** ** The lookup and the banner *)

Lemma os_runs_no_prologue (s : Os.sys) (dst_ip : string) self r evs res :
  Os.runs s dst_ip self r evs res ->
  filter is_resolve evs = [] /\ filter is_banner evs = [].
Proof.
  assert (Hblock : forall it r0,
             filter is_resolve (hop_events (Os.base s) it r0) = [] /\
             filter is_banner (hop_events (Os.base s) it r0) = []).
  { intros it r0. unfold hop_events, setup_events, hop_line. simpl.
    destruct (incoming (hop (Os.base s) (ttl it))) as [[d a]|];
      split; reflexivity. }
  induction 1 as [self r evs opened f He | self r He Hc | self r He Hc Hlim
                 | self r evs res He Hc Hlim Hruns IH].
  - split; now apply (leaves_early_events _ _ _ _ _ _ He).
  - apply Hblock.
  - apply Hblock.
  - destruct IH as (IH1 & IH2). destruct (Hblock self r) as (H1 & H2).
    rewrite !filter_app, IH1, IH2, H1, H2. split; reflexivity.
Qed.

(** X12. [run] looks the name up once, as the first thing it does, and
    never again.  When the lookup returns, the banner is the very next
    event and is printed only that once; when the lookup raises, whatever
    it raises, the lookup is the only event of the run and there is no
    banner. *)
Theorem lookup_first_then_banner (s : Os.sys) (self : Tracer) :
  let tr := trace (snd (Os.run s self world0)) in
  match os_lookup s self with
  | inl dst_ip =>
      exists rest,
        tr = EvResolve (dst self)
             :: EvPrint (Banner (dst self) dst_ip (hops self)) :: rest /\
        filter is_resolve rest = [] /\
        filter is_banner rest = []
  | inr _ => tr = [EvResolve (dst self)]
  end.
Proof.
  intros tr. subst tr.
  pose proof (os_run_runs s self world0) as Hrun.
  destruct (os_lookup s self) as [ip|f].
  - destruct Hrun as (evs & res & _ & Htr & Hruns).
    exists evs. split; [exact Htr|].
    exact (os_runs_no_prologue _ _ _ _ _ _ Hruns).
  - now destruct Hrun as (_ & Htr & _).
Qed.

(** ** The two models agree where no unguarded call fails *)

Lemma leaves_early_guarded (s : Os.sys) (self : Tracer) (r : fd) :
  unguarded_calls_return s (ttl self) ->
  Os.leaves_early s self r =
  match bind_error (hop (Os.base s) (ttl self)) with
  | Some err =>
      Some (setup_events self (hop (Os.base s) (ttl self)) r, [r],
            Os.Program (bind_failure err))
  | None => None
  end.
Proof.
  intros (H1 & H2 & H3 & H4 & H5). unfold Os.leaves_early.
  rewrite H1, H2, H3, H4, H5.
  destruct (bind_error (hop (Os.base s) (ttl self))); reflexivity.
Qed.

(** On the TTLs of a session at which the unguarded calls return, the loop
    with failures is the loop above. *)
Lemma os_loop_refines (s : Os.sys) (dst_ip : string) (fuel : nat) :
  forall (self : Tracer) (w : world),
    (forall t, ttl self <= t <= Z.max (ttl self) (hops self) ->
               unguarded_calls_return s t) ->
    Os.loop fuel s dst_ip self w
    = Os.lift (loop fuel (Os.base s) dst_ip self) w.
Proof.
  induction fuel as [|fuel IH]; intros self w Hq; [reflexivity|].
  rewrite os_loop_S. unfold Os.lift. rewrite loop_S.
  rewrite leaves_early_guarded by (apply Hq; lia).
  destruct (bind_error (hop (Os.base s) (ttl self))); [reflexivity|].
  destruct (hop_ctrl (Os.base s) dst_ip self); [reflexivity|].
  destruct (ttl self + 1 >? hops self)%Z eqn:Hlim; [reflexivity|].
  rewrite IH; [reflexivity|].
  intros t Ht. apply Hq.
  change (ttl (next_tracer self)) with (ttl self + 1) in Ht.
  change (hops (next_tracer self)) with (hops self) in Ht. lia.
Qed.

Lemma os_run_refines (s : Os.sys) (self : Tracer) (w : world) :
  Os.resolve_escape s (dst self) = None ->
  (forall t, ttl self <= t <= Z.max (ttl self) (hops self) ->
             unguarded_calls_return s t) ->
  Os.run s self w = Os.lift (run (Os.base s) self) w.
Proof.
  intros Hesc Hq. rewrite os_run_eq. unfold Os.lift. rewrite run_eq.
  rewrite Hesc. cbv zeta.
  destruct (gethostbyname (Os.base s) (dst self)) as [ip|err]; [|reflexivity].
  now rewrite os_loop_refines.
Qed.
